(** * Voxel island explorer: terrain generator and player controller

    A shallow embedding of [src/block.tsx].

    - JavaScript numbers that the program only ever uses as integers (grid
      indices, elevations, voxel positions) are [Z].
    - Numbers that go through [Math.sin], [Math.cos], [Math.sqrt], division
      or the frame delta are modelled as real numbers ([R]): the embedding
      is the exact-arithmetic reading of the code, without rounding.
    - A value returned by [Math.random] is a rational ([Q]); it is only ever
      compared with a constant.
    - [voxelData.push] and [Math.random] are effects: the generator is
      written in a small state monad over the array and the number of draws
      made so far. *)

From Stdlib Require Import Reals ZArith QArith List Bool String Lia Lra Psatz.
From Stdlib Require Import Ascii Sorted.
Import ListNotations.

(** ** The terrain generator ([noise], [VoxelIsland]) *)

Module VoxelIsland.

(** The colour literals of the source, under the names its comments give. *)
Definition dirt : string := "#8B4513".
Definition grass : string := "#228B22".
Definition sand : string := "#F4A460".
Definition bedrock : string := "#696969".

(** An element of [voxelData]: [{ position: [x, y, z], color }]. *)
Record VoxelDatum : Type := mkVoxel {
  position : Z * Z * Z;
  color : string
}.

Definition px (v : VoxelDatum) : Z := fst (fst (position v)).
Definition py (v : VoxelDatum) : Z := snd (fst (position v)).
Definition pz (v : VoxelDatum) : Z := snd (position v).

(** [function noise(x, z)]. *)
Definition noise (x z : R) : R :=
  (sin (x * 0.1) * cos (z * 0.1) * 2 +
   sin (x * 0.05) * cos (z * 0.05) * 4 +
   sin (x * 0.02) * cos (z * 0.02) * 8)%R.

Definition size : Z := 50.
(** [size / 2] is exact for the even [size] of the source. *)
Definition centerX : Z := size / 2.
Definition centerZ : Z := size / 2.

Definition distFromCenter (x z : Z) : R :=
  sqrt (IZR (x - centerX) ^ 2 + IZR (z - centerZ) ^ 2).

Definition maxDist : R := (IZR size * 0.4)%R.

(** [Math.max(0, noise(x, z) * (1 - distFromCenter / maxDist))]. *)
Definition height (x z : Z) : R :=
  Rmax 0 (noise (IZR x) (IZR z) * (1 - distFromCenter x z / maxDist)).

(** [Math.floor(height) + 1]. *)
Definition voxelHeight (x z : Z) : Z := (Zfloor (height x z) + 1)%Z.

(** The colour chosen for the fill voxel at elevation [y] of a column of
    height [voxelHeight], in the order the source tests the cases. *)
Definition fillColor (voxelHeight y : Z) : string :=
  if (y =? voxelHeight)%Z && (3 <? y)%Z then grass
  else if (y =? voxelHeight)%Z && (y <=? 3)%Z then sand
  else if (y =? 0)%Z then bedrock
  else dirt.

(** *** The effects: the array being filled and the random source *)

Record St : Type := mkSt {
  drawn : nat;                   (* calls to Math.random made so far *)
  voxelData : list VoxelDatum    (* the array, in push order *)
}.

Definition M (A : Type) : Type := St -> A * St.

Definition ret {A} (a : A) : M A := fun s => (a, s).

Definition bind {A B} (m : M A) (k : A -> M B) : M B :=
  fun s => let (a, s') := m s in k a s'.

Notation "x <- m ;; k" := (bind m (fun x => k))
  (at level 61, m at next level, right associativity).
Notation "m ;; k" := (bind m (fun _ => k))
  (at level 61, right associativity).

(** [voxelData.push(v)]. *)
Definition push (v : VoxelDatum) : M unit :=
  fun s => (tt, {| drawn := drawn s; voxelData := voxelData s ++ [v] |}).

(** [for] loops over the list of values the loop variable takes. *)
Fixpoint forEach {A} (l : list A) (body : A -> M unit) : M unit :=
  match l with
  | [] => ret tt
  | a :: l' => body a ;; forEach l' body
  end.

(** The values of [i] in [for (let i = lo; i < hi; i++)]. *)
Definition range (lo hi : Z) : list Z :=
  map (fun i => (lo + Z.of_nat i)%Z) (seq 0 (Z.to_nat (hi - lo))).

Definition Qltb (a b : Q) : bool := negb (Qle_bool b a).

Section Generator.

(** The values [Math.random] returns, call after call. *)
Variable rnd : nat -> Q.

Definition Math_random : M Q :=
  fun s => (rnd (drawn s), {| drawn := S (drawn s); voxelData := voxelData s |}).

(** The candidate leaf cell at offset [(dx, dy, dz)] of a tree on [(x, y, z)]. *)
Definition leaf (x y z dx dz dy : Z) : M unit :=
  r <- Math_random ;;
  if Qltb r 0.7 then
    push {| position := (x - centerX + dx, y + 3 + dy, z - centerZ + dz)%Z;
            color := "#228B22" |}
  else ret tt.

(** The body of [if (... && Math.random() < 0.02)]: trunk, then leaves. *)
Definition tree (x y z : Z) : M unit :=
  push {| position := (x - centerX, y + 1, z - centerZ)%Z; color := "#8B4513" |} ;;
  push {| position := (x - centerX, y + 2, z - centerZ)%Z; color := "#8B4513" |} ;;
  forEach (range (-1) 2) (fun dx =>
    forEach (range (-1) 2) (fun dz =>
      forEach (range 0 2) (fun dy => leaf x y z dx dz dy))).

(** [y === voxelHeight && y > 5 && Math.random() < 0.02]: the draw is made
    only when the two tests before it succeed. *)
Definition treeTest (voxelHeight y : Z) : M bool :=
  if (y =? voxelHeight)%Z && (5 <? y)%Z then
    r <- Math_random ;; ret (Qltb r 0.02)
  else ret false.

(** One iteration of [for (let y = 0; y <= voxelHeight; y++)]. *)
Definition level (x z voxelHeight y : Z) : M unit :=
  let color := fillColor voxelHeight y in
  t <- treeTest voxelHeight y ;;
  (if t then tree x y z else ret tt) ;;
  push {| position := (x - centerX, y, z - centerZ)%Z; color := color |}.

(** The [y] loop of a column whose height has been computed. *)
Definition column (x z voxelHeight : Z) : M unit :=
  forEach (range 0 (voxelHeight + 1)) (level x z voxelHeight).

(** The body of the [z] loop. *)
Definition cell (x z : Z) : M unit :=
  if Rlt_dec (distFromCenter x z) maxDist then column x z (voxelHeight x z)
  else ret tt.

(** The two outer loops. *)
Definition generate : M unit :=
  forEach (range 0 size) (fun x => forEach (range 0 size) (fun z => cell x z)).

(** What an action pushes when it starts after [n] draws. *)
Definition emitted (m : M unit) (n : nat) : list VoxelDatum :=
  voxelData (snd (m {| drawn := n; voxelData := [] |})).

(** The array the [useMemo] callback returns. *)
Definition voxels : list VoxelDatum := emitted generate 0.

End Generator.

End VoxelIsland.

(** ** The player controller ([PlayerController]) *)

Module PlayerController.

Local Open Scope R_scope.

(** The fields of a [THREE.Vector3]. *)
Record Vector3 : Type := mkVector3 { x : R; y : R; z : R }.

(** The [Vector3] methods the controller calls.  In the source they update
    the receiver in place and return it; here each returns the receiver's new
    value, and the caller rebinds the variable that holds the object. *)
Definition set (_ : Vector3) (x y z : R) : Vector3 := mkVector3 x y z.

Definition add (v w : Vector3) : Vector3 :=
  mkVector3 (x v + x w) (y v + y w) (z v + z w).

Definition multiplyScalar (v : Vector3) (s : R) : Vector3 :=
  mkVector3 (x v * s) (y v * s) (z v * s).

Definition crossVectors (a b : Vector3) : Vector3 :=
  mkVector3 (y a * z b - z a * y b)
            (z a * x b - x a * z b)
            (x a * y b - y a * x b).

Definition length (v : Vector3) : R :=
  sqrt (x v * x v + y v * y v + z v * z v).

(** [divideScalar(length() || 1)]: the zero vector is left as it is. *)
Definition normalize (v : Vector3) : Vector3 :=
  let l := length v in
  multiplyScalar v (/ (if Req_dec_T l 0 then 1 else l)).

(** What the callback reads of the camera: its position, its up vector and
    the direction [getWorldDirection] reports (set by the pointer-lock
    controls, never by the callback). *)
Record Camera : Type := mkCamera {
  position : Vector3;
  up : Vector3;
  worldDirection : Vector3
}.

(** [keysPressed.current]: the truth value stored under a key; a key that was
    never written reads as [undefined], which is false in a condition. *)
Definition Keys : Type := string -> bool.

(** The two vector refs the component keeps between frames. *)
Record Refs : Type := mkRefs { velocity : Vector3; direction : Vector3 }.

Definition speed : R := 10.

(** The [useFrame] callback.  [forward] and [right] are objects that
    [multiplyScalar] scales in place, so each branch hands the scaled
    object on to the branches after it. *)
Definition useFrame (keysPressed : Keys) (delta : R) (w : Camera * Refs)
  : Camera * Refs :=
  let (camera, refs) := w in
  let direction := worldDirection camera in
  let forward := direction in
  let right := normalize (crossVectors forward (up camera)) in
  let velocity := set (velocity refs) 0 0 0 in
  let (forward, velocity) :=
    if keysPressed "keyw"%string then
      let forward := multiplyScalar forward (speed * delta) in
      (forward, add velocity forward)
    else (forward, velocity) in
  let (forward, velocity) :=
    if keysPressed "keys"%string then
      let forward := multiplyScalar forward (- speed * delta) in
      (forward, add velocity forward)
    else (forward, velocity) in
  let (right, velocity) :=
    if keysPressed "keya"%string then
      let right := multiplyScalar right (- speed * delta) in
      (right, add velocity right)
    else (right, velocity) in
  let (right, velocity) :=
    if keysPressed "keyd"%string then
      let right := multiplyScalar right (speed * delta) in
      (right, add velocity right)
    else (right, velocity) in
  let velocity :=
    if keysPressed "space"%string then
      mkVector3 (x velocity) (y velocity + speed * delta) (z velocity)
    else velocity in
  let position := add (position camera) velocity in
  let position :=
    if Rlt_dec (y position) 2 then mkVector3 (x position) 2 (z position)
    else position in
  (mkCamera position (up camera) (worldDirection camera),
   mkRefs velocity direction).

(** [n] frames in a row with the same keys and the same delta. *)
Fixpoint frames (n : nat) (keysPressed : Keys) (delta : R) (w : Camera * Refs)
  : Camera * Refs :=
  match n with
  | O => w
  | S n' => frames n' keysPressed delta (useFrame keysPressed delta w)
  end.

(** The movement keys the handlers record. *)
Definition movementKeys : list string :=
  ["keyw"; "keya"; "keys"; "keyd"; "space"]%string.

End PlayerController.

(** * Notions used in the statements *)

Import VoxelIsland.

(** ** The generator's runs *)

(** The state of a run that starts after [n] draws, with an empty array. *)
Definition fresh (n : nat) : St := {| drawn := n; voxelData := [] |}.

(** What an action returns, how many draws have been made when it ends, and
    what it pushes, when it starts after [n] draws on an empty array. *)
Definition result {A} (m : M A) (n : nat) : A := fst (m (fresh n)).
Definition after {A} (m : M A) (n : nat) : nat := drawn (snd (m (fresh n))).
Definition pushed {A} (m : M A) (n : nat) : list VoxelDatum :=
  voxelData (snd (m (fresh n))).

(** An action is [framed] when what it returns, how many draws it makes and
    what it pushes do not depend on the array it starts from, and the array it
    leaves is the one it found followed by what it pushed. *)
Definition framed {A} (m : M A) : Prop :=
  forall s, m s = (result m (drawn s),
                   {| drawn := after m (drawn s);
                      voxelData := voxelData s ++ pushed m (drawn s) |}).

(** ** Columns, trees and the specification's formulas *)

(** The squared distance of a cell from the centre, as the integer it is. *)
Definition dist2 (x z : Z) : Z :=
  ((x - centerX) * (x - centerX) + (z - centerZ) * (z - centerZ))%Z.

(** The fill voxel of column [(x, z)] at elevation [y]. *)
Definition fill (x z voxelHeight y : Z) : VoxelDatum :=
  {| position := (x - centerX, y, z - centerZ)%Z;
     color := fillColor voxelHeight y |}.

(** The two trunk voxels of a tree standing on [(x, y, z)]. *)
Definition trunk (x y z : Z) : list VoxelDatum :=
  [ {| position := (x - centerX, y + 1, z - centerZ)%Z; color := "#8B4513" |};
    {| position := (x - centerX, y + 2, z - centerZ)%Z; color := "#8B4513" |} ].

(** The 18 candidate leaf offsets [(dx, dz, dy)], in loop order. *)
Definition canopyCells : list (Z * Z * Z) :=
  flat_map (fun dx =>
    flat_map (fun dz => map (fun dy => (dx, dz, dy)) [0; 1]%Z) [-1; 0; 1]%Z)
    [-1; 0; 1]%Z.

(** The leaf voxel at a candidate offset of a tree standing on [(x, y, z)]. *)
Definition leafVoxel (x y z : Z) (d : Z * Z * Z) : VoxelDatum :=
  let '(dx, dz, dy) := d in
  {| position := (x - centerX + dx, y + 3 + dy, z - centerZ + dz)%Z;
     color := "#228B22" |}.

(** The leaves of a tree whose first leaf draw is draw number [m]: the
    candidate number [k] is kept when draw [k + m] is below 0.7. *)
Definition canopy (rnd : nat -> Q) (x y z : Z) (m : nat) : list VoxelDatum :=
  flat_map (fun kd : nat * (Z * Z * Z) =>
              if Qltb (rnd (fst kd + m)%nat) 0.7 then [leafVoxel x y z (snd kd)]
              else [])
           (combine (seq 0 18) canopyCells).

(** The test that guards the tree, on the draw it consumes. *)
Definition treePlaced (rnd : nat -> Q) (voxelHeight y : Z) (n : nat) : bool :=
  (y =? voxelHeight)%Z && (5 <? y)%Z && Qltb (rnd n) 0.02.

(** The tree voxels a column of height [vh] pushes when its placement draw
    is draw number [n]. *)
Definition treeAt (rnd : nat -> Q) (x z vh : Z) (n : nat) : list VoxelDatum :=
  if treePlaced rnd vh vh n then trunk x vh z ++ canopy rnd x vh z (S n)
  else [].

(** The height sample as the specification writes it. *)
Definition H (x z : R) : R :=
  (sin (0.1 * x) * cos (0.1 * z) * 2 +
   sin (0.05 * x) * cos (0.05 * z) * 4 +
   sin (0.02 * x) * cos (0.02 * z) * 8)%R.

(** The falloff-scaled sample, clamped at zero and floored. *)
Definition flooredHeight (x z : Z) : Z :=
  Zfloor (Rmax 0 (H (IZR x) (IZR z) *
                  (1 - distFromCenter x z / (0.4 * IZR size)))).

(** The radial distance of the grid cell [(x, z)] from the island centre,
    the midpoint [(size / 2, size / 2)] of the grid, as the specification
    words it: the Euclidean distance in the x-z plane. *)
Definition radialDistance (x z : Z) : R :=
  sqrt ((IZR x - IZR size / 2) ^ 2 + (IZR z - IZR size / 2) ^ 2).

(** The colour rule in the precedence the specification gives. *)
Definition ruleColor (voxelHeight y : Z) : string :=
  if (y =? 0)%Z then bedrock
  else if (y =? voxelHeight)%Z && (3 <? y)%Z then grass
  else if (y =? voxelHeight)%Z && (y <=? 3)%Z then sand
  else dirt.

(** A random source that always returns 0. *)
Definition zeros : nat -> Q := fun _ => 0%Q.

(** [A] comes before [B] in [out]: every occurrence of a voxel of [A] is at a
    smaller index than every occurrence of a voxel of [B]. *)
Definition allBefore (A B out : list VoxelDatum) : Prop :=
  forall i j a b,
    nth_error out i = Some a -> nth_error out j = Some b ->
    In a A -> In b B -> (i < j)%nat.

(** A uniform source of resolution [N] returns each of the [N] values
    [0/N, 1/N, ..., (N-1)/N] equally often; the probability that a test on
    the draw succeeds is the share of these values that pass it. *)
Definition uniformValues (N : positive) : list Q :=
  map (fun i => Z.of_nat i # N) (seq 0 (Pos.to_nat N)).

(** How many of the values of a uniform source are below [t]. *)
Definition passing (t : Q) (N : positive) : nat :=
  List.length (filter (fun r => Qltb r t) (uniformValues N)).

(** ** Bounding the height field on the grid *)

(** Fixed-point approximations: a pair [(m, r)] stands for the reals [v]
    with [|v * scale - m| <= r]. *)
Definition scale : Z := 1000000.

(** [within v a]: the real [v] times [scale] is within [snd a] of [fst a]. *)
Definition within (v : R) (a : Z * Z) : Prop :=
  (Rabs (v * IZR scale - IZR (fst a)) <= IZR (snd a))%R.

(** Constants, sums, integer multiples and products of approximations. *)
Definition aconst (k : Z) : Z * Z := ((k * scale)%Z, 0%Z).
Definition aadd (a b : Z * Z) : Z * Z := ((fst a + fst b)%Z, (snd a + snd b)%Z).
Definition ascale (k : Z) (a : Z * Z) : Z * Z :=
  ((k * fst a)%Z, (Z.abs k * snd a)%Z).
Definition amul (a b : Z * Z) : Z * Z :=
  ((fst a * fst b / scale)%Z,
   ((Z.abs (fst a) * snd b + Z.abs (fst b) * snd a + snd a * snd b) / scale + 2)%Z).

(** The degree-7 Taylor polynomial of the sine at [x / den], on the grid. *)
Definition sinT (x den : Z) : Z * Z :=
  let d2 := (den * den)%Z in
  let x2 := (x * x)%Z in
  let N := (x * (5040 * (d2 * d2 * d2) - x2 * (840 * (d2 * d2)
                 - x2 * (42 * d2 - x2))))%Z in
  ((scale * N / (5040 * (d2 * d2 * d2 * den)))%Z, 107%Z).

(** The degree-6 Taylor polynomial of the cosine at [x / den], on the grid. *)
Definition cosT (x den : Z) : Z * Z :=
  let d2 := (den * den)%Z in
  let x2 := (x * x)%Z in
  let N := (720 * (d2 * d2 * d2) - x2 * (360 * (d2 * d2)
                 - x2 * (30 * d2 - x2)))%Z in
  ((scale * N / (720 * (d2 * d2 * d2)))%Z, 637%Z).

(** From approximations of [sin t] and [cos t] to approximations of
    [sin (2 t)] and [cos (2 t)]. *)
Definition double (sc : (Z * Z) * (Z * Z)) : (Z * Z) * (Z * Z) :=
  let (s, c) := sc in
  (ascale 2 (amul s c), aadd (aconst 1) (ascale (-2) (amul s s))).

(** Approximations of the sine and cosine of [4 * x / den]. *)
Definition trig (x den : Z) : (Z * Z) * (Z * Z) :=
  double (double (sinT x den, cosT x den)).

(** The approximations of the three sine-cosine pairs at a grid index. *)
Definition Trig3 : Type :=
  ((Z * Z) * (Z * Z)) * ((Z * Z) * (Z * Z)) * ((Z * Z) * (Z * Z)).

(** The pairs for the three frequencies 0.1, 0.05 and 0.02 of the noise. *)
Definition trig3 (x : Z) : Trig3 := (trig x 40, trig x 80, trig x 200).

(** An approximation of the noise from the pairs of its two arguments. *)
Definition noiseFrom (tx tz : Trig3) : Z * Z :=
  let '(x1, x2, x3) := tx in
  let '(z1, z2, z3) := tz in
  aadd (aadd (ascale 2 (amul (fst x1) (snd z1)))
             (ascale 4 (amul (fst x2) (snd z2))))
       (ascale 8 (amul (fst x3) (snd z3))).

(** An approximation of [noise x z] on the grid. *)
Definition noiseA (x z : Z) : Z * Z := noiseFrom (trig3 x) (trig3 z).

(** The check made on a cell inside the coastline: an upper bound of the
    noise, times an upper bound of the falloff factor, stays below 5. *)
Definition lowFrom (x z : Z) (tx tz : Trig3) : bool :=
  if (dist2 x z <? 400)%Z then
    let a := noiseFrom tx tz in
    (Z.max 0 (fst a + snd a) * (2000 - Z.sqrt (dist2 x z * 10000))
     <? 5 * scale * 2000)%Z
  else true.

(** The check at the cell [(x, z)]. *)
Definition lowCell (x z : Z) : bool := lowFrom x z (trig3 x) (trig3 z).

(** The pairs of every index of the grid, computed once. *)
Definition trigTable : list (Z * Trig3) :=
  map (fun x => (x, trig3 x)) (range 0 size).

(** ** The player controller *)

Module PlayerNotions.

Import PlayerController.
Local Open Scope R_scope.

(** The camera after a frame. *)
Definition cameraAfter (keysPressed : Keys) (delta : R) (w : Camera * Refs)
  : Camera := fst (useFrame keysPressed delta w).

(** The velocity a frame leaves in the velocity ref. *)
Definition velocityOf (keysPressed : Keys) (delta : R) (w : Camera * Refs)
  : Vector3 := velocity (snd (useFrame keysPressed delta w)).

(** The zero vector, and the difference and inner product of two vectors. *)
Definition zero : Vector3 := mkVector3 0 0 0.
Definition sub (v w : Vector3) : Vector3 :=
  mkVector3 (x v - x w) (y v - y w) (z v - z w).
Definition dot (v w : Vector3) : R := x v * x w + y v * y w + z v * z w.

(** The velocity the specification describes: one term per pressed key. *)
Definition sumOfKeys (keysPressed : Keys) (delta : R) (f r : Vector3)
  : Vector3 :=
  let term (k : string) (v : Vector3) := if keysPressed k then v else zero in
  add (add (add (add
    (term "keyw"%string (multiplyScalar f (speed * delta)))
    (term "keys"%string (multiplyScalar f (- (speed * delta)))))
    (term "keya"%string (multiplyScalar r (- (speed * delta)))))
    (term "keyd"%string (multiplyScalar r (speed * delta))))
    (term "space"%string (mkVector3 0 (speed * delta) 0)).

(** Only the forward key is held. *)
Definition onlyForward (keysPressed : Keys) : Prop :=
  keysPressed "keyw"%string = true /\
  keysPressed "keys"%string = false /\
  keysPressed "keya"%string = false /\
  keysPressed "keyd"%string = false /\
  keysPressed "space"%string = false.

(** No movement key is held. *)
Definition idle (keysPressed : Keys) : Prop :=
  forall k, In k movementKeys -> keysPressed k = false.

(** Key states used in the examples. *)
Definition holding (held : list string) : Keys :=
  fun k => if in_dec string_dec k held then true else false.

(** A camera at [p] looking along [d], with the default up vector. *)
Definition cameraAt (p d : Vector3) : Camera * Refs :=
  (mkCamera p (mkVector3 0 1 0) d, mkRefs zero zero).

End PlayerNotions.

(** * The rest of the component *)

(** ** What the generator pushes on the grid *)

(** The test [distFromCenter < maxDist], decided on the integer squared
    distance. *)
Definition included (x z : Z) : bool := (dist2 x z <? 400)%Z.

(** The fill voxels of the column on [(x, z)], bottom to top; none for a
    cell outside the coastline. *)
Definition columnFills (x z : Z) : list VoxelDatum :=
  if included x z then
    map (fill x z (voxelHeight x z)) (range 0 (voxelHeight x z + 1))
  else [].

(** The columns of the grid in loop order: [x] outermost, then [z]. *)
Definition gridFills : list VoxelDatum :=
  flat_map (fun x => flat_map (fun z => columnFills x z) (range 0 size))
           (range 0 size).

(** The order of emission: by [x], then by [z], then by elevation. *)
Definition emittedBefore (v w : VoxelDatum) : Prop :=
  (px v < px w \/
   (px v = px w /\ (pz v < pz w \/ (pz v = pz w /\ py v < py w))))%Z.

(** How many of the 18 leaf draws of a tree, the first of which is draw
    number [m], are below 0.7. *)
Definition leavesKept (rnd : nat -> Q) (m : nat) : nat :=
  List.length (filter (fun k => Qltb (rnd (k + m)%nat) 0.7) (seq 0 18)).

(** ** The keyboard handlers of [PlayerController] *)

Module KeyboardHandlers.

Import PlayerController.

(** [toLowerCase] on a key code.  [KeyboardEvent.code] values are ASCII; the
    letters A to Z are mapped to a to z and every other character is kept. *)
Definition lowerAscii (c : ascii) : ascii :=
  let n := nat_of_ascii c in
  if (65 <=? n)%nat && (n <=? 90)%nat then ascii_of_nat (n + 32) else c.

Fixpoint toLowerCase (s : string) : string :=
  match s with
  | EmptyString => EmptyString
  | String c s' => String (lowerAscii c) (toLowerCase s')
  end.

(** [list.includes(key)]. *)
Definition includes (l : list string) (key : string) : bool :=
  existsb (String.eqb key) l.

(** [keysPressed.current[key] = b]. *)
Definition assign (keysPressed : Keys) (key : string) (b : bool) : Keys :=
  fun k => if String.eqb k key then b else keysPressed k.

(** [handleKeyDown] and [handleKeyUp], on the [code] of the event: the key
    state they leave, and whether they called [event.preventDefault()]. *)
Definition handleKeyDown (code : string) (keysPressed : Keys) : Keys * bool :=
  let key := toLowerCase code in
  if includes movementKeys key then (assign keysPressed key true, true)
  else (keysPressed, false).

Definition handleKeyUp (code : string) (keysPressed : Keys) : Keys * bool :=
  let key := toLowerCase code in
  if includes movementKeys key then (assign keysPressed key false, true)
  else (keysPressed, false).

(** The events the two listeners are registered for, with their [code]. *)
Inductive KeyEvent : Type :=
| keydown (code : string)
| keyup (code : string).

Definition codeOf (e : KeyEvent) : string :=
  match e with keydown c => c | keyup c => c end.

Definition isDown (e : KeyEvent) : bool :=
  match e with keydown _ => true | keyup _ => false end.

(** The key state after one event, and after a sequence of events. *)
Definition dispatch (keysPressed : Keys) (e : KeyEvent) : Keys :=
  match e with
  | keydown c => fst (handleKeyDown c keysPressed)
  | keyup c => fst (handleKeyUp c keysPressed)
  end.

Definition dispatchAll (events : list KeyEvent) (keysPressed : Keys) : Keys :=
  fold_left dispatch events keysPressed.

(** [useRef({})]: no key has been written. *)
Definition noKeys : Keys := fun _ => false.

(** The last event of a sequence whose code names the key [k], if any. *)
Definition lastEventFor (k : string) (events : list KeyEvent)
  : option KeyEvent :=
  find (fun e => String.eqb (toLowerCase (codeOf e)) k) (rev events).

(** The codes the browser reports for the W, A, S, D keys and the space
    bar, each with the flag the frame callback reads for it. *)
Definition browserCodes : list (string * string) :=
  [("KeyW", "keyw"); ("KeyA", "keya"); ("KeyS", "keys"); ("KeyD", "keyd");
   ("Space", "space")]%string.

(** Two characters are the same letter up to case when they are equal or one
    is an upper-case letter A to Z (codes 65 to 90) and the other the
    lower-case letter 32 codes above it; two strings spell the same letters
    up to case when they do so character by character. *)
Definition sameLetter (a b : ascii) : bool :=
  let m := nat_of_ascii a in
  let n := nat_of_ascii b in
  (m =? n)%nat
  || ((65 <=? m)%nat && (m <=? 90)%nat && (n =? m + 32)%nat)
  || ((65 <=? n)%nat && (n <=? 90)%nat && (m =? n + 32)%nat).

Fixpoint sameLetters (s t : string) : bool :=
  match s, t with
  | EmptyString, EmptyString => true
  | String a s', String b t' => sameLetter a b && sameLetters s' t'
  | _, _ => false
  end.

(** A code made of ASCII characters only (codes below 128). *)
Fixpoint isAscii (s : string) : bool :=
  match s with
  | EmptyString => true
  | String c s' => (nat_of_ascii c <? 128)%nat && isAscii s'
  end.

(** The character code [lowerAscii] produces from a character code. *)
Definition lowerCode (m : nat) : nat :=
  if (65 <=? m)%nat && (m <=? 90)%nat then (m + 32)%nat else m.

End KeyboardHandlers.

(** ** The overlay state of [Block] *)

Module Block.

(** The two [useState] cells. *)
Record State : Type := mkState { showInstructions : bool; isLocked : bool }.

(** [useState(true)] and [useState(false)]. *)
Definition initial : State :=
  {| showInstructions := true; isLocked := false |}.

(** The [onLock] and [onUnlock] callbacks given to [PointerLockControls]. *)
Definition onLock (_ : State) : State :=
  {| showInstructions := false; isLocked := true |}.

Definition onUnlock (_ : State) : State :=
  {| showInstructions := true; isLocked := false |}.

Inductive LockEvent : Type := lock | unlock.

Definition handle (s : State) (e : LockEvent) : State :=
  match e with lock => onLock s | unlock => onUnlock s end.

Definition handleAll (events : list LockEvent) (s : State) : State :=
  fold_left handle events s.

(** [<Instructions show={showInstructions && !isLocked} />] renders the
    overlay when [show] is true and nothing otherwise. *)
Definition instructionsShown (s : State) : bool :=
  showInstructions s && negb (isLocked s).

(** [{!isLocked && (...)}]: the centred start prompt. *)
Definition promptShown (s : State) : bool := negb (isLocked s).

End Block.

(** * Properties of the terrain generator *)

(** ** Loop ranges *)

Lemma in_range (lo hi i : Z) : In i (range lo hi) <-> (lo <= i < hi)%Z.
Proof.
  unfold range. rewrite in_map_iff. split.
  - intros [k [<- Hk]]. apply in_seq in Hk. lia.
  - intros Hi. exists (Z.to_nat (i - lo)). split; [lia|].
    apply in_seq. lia.
Qed.

Lemma range_empty (lo hi : Z) : (hi <= lo)%Z -> range lo hi = [].
Proof.
  intros H. unfold range.
  replace (Z.to_nat (hi - lo)) with O by lia. reflexivity.
Qed.

Lemma range_snoc (lo hi : Z) :
  (lo <= hi)%Z -> range lo (hi + 1) = range lo hi ++ [hi].
Proof.
  intros H. unfold range.
  replace (Z.to_nat (hi + 1 - lo)) with (Z.to_nat (hi - lo) + 1)%nat by lia.
  rewrite seq_app, map_app. simpl. do 2 f_equal. lia.
Qed.

(** ** Actions only append to the array

    An action is [framed] when what it returns, how many draws it makes and
    what it pushes do not depend on the array it starts from, and the array it
    leaves is the one it found followed by what it pushed. *)

Lemma framed_ret {A} (a : A) : framed (ret a).
Proof. intros [n l]. unfold ret. cbn. now rewrite app_nil_r. Qed.

Lemma framed_push (v : VoxelDatum) : framed (push v).
Proof. intros [n l]. reflexivity. Qed.

Lemma framed_random (rnd : nat -> Q) : framed (Math_random rnd).
Proof. intros [n l]. unfold Math_random. cbn. now rewrite app_nil_r. Qed.

Lemma bind_fresh {A B} (m : M A) (k : A -> M B) (n : nat) :
  (forall a, framed (k a)) ->
  bind m k (fresh n) =
  (result (k (result m n)) (after m n),
   {| drawn := after (k (result m n)) (after m n);
      voxelData := pushed m n ++ pushed (k (result m n)) (after m n) |}).
Proof.
  intros Hk. unfold bind, result, after, pushed.
  destruct (m (fresh n)) as [a s'] eqn:E. cbn. now rewrite (Hk a s').
Qed.

Lemma framed_bind {A B} (m : M A) (k : A -> M B) :
  framed m -> (forall a, framed (k a)) -> framed (bind m k).
Proof.
  intros Hm Hk s.
  unfold result at 1, after at 1, pushed at 1.
  rewrite (bind_fresh m k (drawn s) Hk). cbn.
  unfold bind at 1. rewrite (Hm s), (Hk _ _). cbn.
  now rewrite app_assoc.
Qed.

Lemma framed_forEach {A} (l : list A) (body : A -> M unit) :
  (forall a, framed (body a)) -> framed (forEach l body).
Proof.
  intros Hb. induction l as [|a l IH]; cbn.
  - apply framed_ret.
  - apply framed_bind; auto.
Qed.

Lemma framed_if {A} (b : bool) (m1 m2 : M A) :
  framed m1 -> framed m2 -> framed (if b then m1 else m2).
Proof. now destruct b. Qed.

Create HintDb framed.
#[global] Hint Resolve framed_ret framed_push framed_random framed_bind
  framed_forEach framed_if : framed.

Section Framed.

Variable rnd : nat -> Q.

Lemma framed_leaf x y z dx dz dy : framed (leaf rnd x y z dx dz dy).
Proof. unfold leaf. auto 6 with framed. Qed.

Lemma framed_tree x y z : framed (tree rnd x y z).
Proof.
  unfold tree.
  apply framed_bind; [apply framed_push | intros _].
  apply framed_bind; [apply framed_push | intros _].
  do 3 (apply framed_forEach; intro). apply framed_leaf.
Qed.

Lemma framed_treeTest vh y : framed (treeTest rnd vh y).
Proof. unfold treeTest. auto 6 with framed. Qed.

Lemma framed_level x z vh y : framed (level rnd x z vh y).
Proof.
  unfold level. apply framed_bind; [apply framed_treeTest|].
  intros t. apply framed_bind; [|intros _; apply framed_push].
  apply framed_if; [apply framed_tree | apply framed_ret].
Qed.

Lemma framed_column x z vh : framed (column rnd x z vh).
Proof. apply framed_forEach. intro. apply framed_level. Qed.

Lemma framed_cell x z : framed (cell rnd x z).
Proof.
  unfold cell. destruct (Rlt_dec _ _);
    [apply framed_column | apply framed_ret].
Qed.

End Framed.

#[global] Hint Resolve framed_leaf framed_tree framed_treeTest framed_level
  framed_column framed_cell : framed.

Lemma emitted_pushed (m : M unit) (n : nat) : emitted m n = pushed m n.
Proof. reflexivity. Qed.

Lemma emitted_ret (n : nat) : emitted (ret tt) n = [].
Proof. reflexivity. Qed.

Lemma emitted_push (v : VoxelDatum) (n : nat) : emitted (push v) n = [v].
Proof. reflexivity. Qed.

Lemma after_ret {A} (a : A) (n : nat) : after (ret a) n = n.
Proof. reflexivity. Qed.

Lemma after_push (v : VoxelDatum) (n : nat) : after (push v) n = n.
Proof. reflexivity. Qed.

Lemma emitted_bind {A} (m : M A) (k : A -> M unit) (n : nat) :
  (forall a, framed (k a)) ->
  emitted (bind m k) n = pushed m n ++ emitted (k (result m n)) (after m n).
Proof.
  intros Hk. change (emitted (bind m k) n) with (pushed (bind m k) n).
  unfold pushed at 1. now rewrite (bind_fresh m k n Hk).
Qed.

Lemma after_bind {A B} (m : M A) (k : A -> M B) (n : nat) :
  (forall a, framed (k a)) ->
  after (bind m k) n = after (k (result m n)) (after m n).
Proof.
  intros Hk. unfold after at 1. now rewrite (bind_fresh m k n Hk).
Qed.

Lemma emitted_forEach_cons {A} (a : A) (l : list A) (body : A -> M unit) n :
  (forall a, framed (body a)) ->
  emitted (forEach (a :: l) body) n =
  emitted (body a) n ++ emitted (forEach l body) (after (body a) n).
Proof.
  intros Hb. cbn [forEach]. rewrite emitted_bind; [reflexivity|].
  intros _. now apply framed_forEach.
Qed.

Lemma emitted_forEach_app {A} (l1 l2 : list A) (body : A -> M unit) n :
  (forall a, framed (body a)) ->
  emitted (forEach (l1 ++ l2) body) n =
  emitted (forEach l1 body) n ++
  emitted (forEach l2 body) (after (forEach l1 body) n).
Proof.
  intros Hb. revert n. induction l1 as [|a l1 IH]; intros n.
  - reflexivity.
  - rewrite <- app_comm_cons, !emitted_forEach_cons, IH by assumption.
    rewrite <- app_assoc. do 2 f_equal. cbn [forEach].
    rewrite after_bind; [reflexivity|]. intros _. now apply framed_forEach.
Qed.

(** A voxel pushed by a loop was pushed by one of its iterations. *)
Lemma in_emitted_forEach {A} (l : list A) (body : A -> M unit) n v :
  (forall a, framed (body a)) ->
  In v (emitted (forEach l body) n) ->
  exists a n', In a l /\ In v (emitted (body a) n').
Proof.
  intros Hb. revert n. induction l as [|a l IH]; intros n H.
  - destruct H.
  - rewrite emitted_forEach_cons in H by assumption.
    apply in_app_or in H as [H|H].
    + exists a, n. split; [now left | assumption].
    + destruct (IH _ H) as (a' & n' & Ha' & Hv).
      exists a', n'. split; [now right | assumption].
Qed.

(** Every iteration of a loop is run, after some number of draws. *)
Lemma forEach_runs {A} (l : list A) (body : A -> M unit) n a :
  (forall a, framed (body a)) ->
  In a l ->
  exists n', forall v, In v (emitted (body a) n') ->
                       In v (emitted (forEach l body) n).
Proof.
  intros Hb. revert n. induction l as [|b l IH]; intros n Ha.
  - destruct Ha.
  - destruct Ha as [->|Ha].
    + exists n. intros v Hv. rewrite emitted_forEach_cons by assumption.
      apply in_or_app. now left.
    + destruct (IH (after (body b) n) Ha) as [n' Hn'].
      exists n'. intros v Hv. rewrite emitted_forEach_cons by assumption.
      apply in_or_app. right. now apply Hn'.
Qed.

(** ** The island's disc and the height field *)

Lemma centerX_eq : centerX = 25%Z.
Proof. reflexivity. Qed.

Lemma centerZ_eq : centerZ = 25%Z.
Proof. reflexivity. Qed.

Lemma maxDist_eq : maxDist = 20%R.
Proof. unfold maxDist, size. lra. Qed.

Lemma distFromCenter_sqrt (x z : Z) : distFromCenter x z = sqrt (IZR (dist2 x z)).
Proof.
  unfold distFromCenter, dist2. f_equal.
  rewrite plus_IZR, !mult_IZR. ring.
Qed.

Lemma dist2_nonneg (x z : Z) : (0 <= dist2 x z)%Z.
Proof.
  unfold dist2. generalize (x - centerX)%Z (z - centerZ)%Z. intros a b. nia.
Qed.

Lemma sqrt_IZR_lt (a b : Z) :
  (0 <= a)%Z -> (0 <= b)%Z -> (sqrt (IZR a) < IZR b)%R <-> (a < b * b)%Z.
Proof.
  intros Ha Hb.
  assert (HbR : (0 <= IZR b)%R) by now apply IZR_le.
  assert (HaR : (0 <= IZR a)%R) by now apply IZR_le.
  rewrite <- (sqrt_square (IZR b)) at 1 by assumption.
  rewrite <- mult_IZR. split.
  - intros H. apply lt_IZR. apply sqrt_lt_0_alt in H. exact H.
  - intros H. apply sqrt_lt_1_alt. split; [assumption|]. now apply IZR_lt.
Qed.

(** A cell is inside the coastline exactly when its squared distance from the
    centre is below 400. *)
Lemma included_iff (x z : Z) :
  (distFromCenter x z < maxDist)%R <-> (dist2 x z < 400)%Z.
Proof.
  rewrite distFromCenter_sqrt, maxDist_eq.
  rewrite (sqrt_IZR_lt (dist2 x z) 20 (dist2_nonneg x z)) by lia.
  reflexivity.
Qed.

Lemma distFromCenter_nonneg (x z : Z) : (0 <= distFromCenter x z)%R.
Proof. apply sqrt_pos. Qed.

Lemma noise_le_14 (x z : R) : (noise x z <= 14)%R.
Proof.
  unfold noise.
  assert (P : forall a b, (sin a * cos b <= 1)%R).
  { intros a b. pose proof (SIN_bound a) as [? ?].
    pose proof (COS_bound b) as [? ?].
    assert (0 <= (1 - sin a) * (1 + cos b))%R by (apply Rmult_le_pos; lra).
    assert (0 <= (1 + sin a) * (1 - cos b))%R by (apply Rmult_le_pos; lra).
    lra. }
  pose proof (P (x * 0.1) (z * 0.1))%R.
  pose proof (P (x * 0.05) (z * 0.05))%R.
  pose proof (P (x * 0.02) (z * 0.02))%R.
  lra.
Qed.

Lemma height_nonneg (x z : Z) : (0 <= height x z)%R.
Proof. unfold height. apply Rmax_l. Qed.

(** Every column has at least the two levels 0 and 1. *)
Lemma voxelHeight_pos (x z : Z) : (1 <= voxelHeight x z)%Z.
Proof.
  unfold voxelHeight.
  pose proof (Zfloor_lub 0 (height x z) (height_nonneg x z)). lia.
Qed.

(** Inside the coastline the falloff factor lies in (0, 1]. *)
Lemma falloff_bounds (x z : Z) :
  (distFromCenter x z < maxDist)%R ->
  (0 < 1 - distFromCenter x z / maxDist <= 1)%R.
Proof.
  intros H. rewrite maxDist_eq in *.
  pose proof (distFromCenter_nonneg x z). lra.
Qed.

(** A column tall enough to carry a tree is well inside the island: the
    height sample is at most 14, so the falloff factor is at least 5/14. *)
Lemma tall_column_inland (x z : Z) :
  (distFromCenter x z < maxDist)%R ->
  (5 < voxelHeight x z)%Z ->
  (dist2 x z <= 165)%Z.
Proof.
  intros Hin Htall.
  assert (H5 : (5 <= height x z)%R).
  { unfold voxelHeight in Htall.
    pose proof (Zfloor_bound (height x z)) as [Hlo _].
    assert (IZR 5 <= IZR (Zfloor (height x z)))%R by (apply IZR_le; lia).
    lra. }
  unfold height in H5.
  pose proof (falloff_bounds x z Hin) as [Hf0 Hf1].
  pose proof (noise_le_14 (IZR x) (IZR z)) as Hn.
  set (f := (1 - distFromCenter x z / maxDist)%R) in *.
  assert (Hp : (5 <= noise (IZR x) (IZR z) * f)%R).
  { unfold Rmax in H5. destruct (Rle_dec _ _); lra. }
  assert (Hf : (5 <= 14 * f)%R) by nra.
  assert (Hd : (distFromCenter x z <= 90 / 7)%R).
  { subst f. rewrite maxDist_eq in Hf. lra. }
  rewrite distFromCenter_sqrt in Hd.
  assert (Hs : (IZR (dist2 x z) <= 90 / 7 * (90 / 7))%R).
  { pose proof (dist2_nonneg x z) as H0. apply IZR_le in H0.
    rewrite <- (sqrt_sqrt (IZR (dist2 x z))) by assumption.
    pose proof (sqrt_pos (IZR (dist2 x z))). nra. }
  assert (Hz : (IZR (dist2 x z) < IZR 166)%R) by lra.
  apply lt_IZR in Hz. lia.
Qed.

(** ** No column of the grid is higher than 5

    The height field is bounded on every cell of the grid by evaluating
    Taylor polynomials of the sine and cosine in fixed-point arithmetic,
    with the rounding and truncation errors carried along. *)

Section ShippedGrid.

Local Open Scope R_scope.

Lemma IZR_div_bounds (a d : Z) :
  (0 < d)%Z -> IZR (a / d) <= IZR a / IZR d < IZR (a / d) + 1.
Proof.
  intros Hd.
  assert (HdR : 0 < IZR d) by now apply IZR_lt.
  pose proof (Z.mul_div_le a d Hd) as H1.
  pose proof (Z.mul_succ_div_gt a d Hd) as H2.
  apply IZR_le in H1. apply IZR_lt in H2.
  rewrite mult_IZR in H1. rewrite mult_IZR, succ_IZR in H2.
  split.
  - apply Rmult_le_reg_r with (IZR d); [assumption|].
    unfold Rdiv. rewrite Rmult_assoc, Rinv_l by lra. lra.
  - apply Rmult_lt_reg_r with (IZR d); [assumption|].
    unfold Rdiv. rewrite Rmult_assoc, Rinv_l by lra. lra.
Qed.

Lemma Rabs_le_between (a b : R) : Rabs a <= b -> - b <= a <= b.
Proof. unfold Rabs. destruct (Rcase_abs a); lra. Qed.

Lemma within_rad_nonneg v a : within v a -> (0 <= snd a)%Z.
Proof.
  unfold within. intros H. apply le_IZR.
  pose proof (Rabs_pos (v * IZR scale - IZR (fst a))). lra.
Qed.

Lemma within_const k : within (IZR k) (aconst k).
Proof.
  unfold within, aconst. cbn [fst snd]. rewrite mult_IZR.
  rewrite Rminus_diag, Rabs_R0. lra.
Qed.

Lemma within_add u v a b : within u a -> within v b -> within (u + v) (aadd a b).
Proof.
  unfold within, aadd. cbn [fst snd]. intros Ha Hb.
  rewrite !plus_IZR.
  replace ((u + v) * IZR scale - (IZR (fst a) + IZR (fst b)))
    with ((u * IZR scale - IZR (fst a)) + (v * IZR scale - IZR (fst b))) by ring.
  eapply Rle_trans; [apply Rabs_triang|]. lra.
Qed.

Lemma within_scale k v a : within v a -> within (IZR k * v) (ascale k a).
Proof.
  unfold within, ascale. cbn [fst snd]. intros Ha.
  rewrite !mult_IZR, abs_IZR.
  replace (IZR k * v * IZR scale - IZR k * IZR (fst a))
    with (IZR k * (v * IZR scale - IZR (fst a))) by ring.
  rewrite Rabs_mult. apply Rmult_le_compat_l; [apply Rabs_pos | assumption].
Qed.

Lemma within_mul u v a b : within u a -> within v b -> within (u * v) (amul a b).
Proof.
  intros Ha Hb.
  pose proof (within_rad_nonneg _ _ Ha) as Hra.
  pose proof (within_rad_nonneg _ _ Hb) as Hrb.
  unfold within in *. destruct a as [ma ra], b as [mb rb]. cbn [fst snd amul] in *.
  set (U := u * IZR scale) in *. set (V := v * IZR scale) in *.
  assert (HD : 0 < IZR scale) by (unfold scale; lra).
  set (E := (Z.abs ma * rb + Z.abs mb * ra + ra * rb)%Z).
  assert (HE : Rabs (U * V - IZR ma * IZR mb) <= IZR E).
  { unfold E. rewrite !plus_IZR, !mult_IZR, !abs_IZR.
    replace (U * V - IZR ma * IZR mb)
      with (IZR ma * (V - IZR mb) + IZR mb * (U - IZR ma)
            + (U - IZR ma) * (V - IZR mb)) by ring.
    eapply Rle_trans; [apply Rabs_triang|].
    eapply Rle_trans; [apply Rplus_le_compat_r, Rabs_triang|].
    rewrite !Rabs_mult.
    pose proof (Rabs_pos (IZR ma)). pose proof (Rabs_pos (IZR mb)).
    pose proof (Rabs_pos (U - IZR ma)). pose proof (Rabs_pos (V - IZR mb)).
    apply IZR_le in Hra, Hrb.
    assert (Rabs (IZR ma) * Rabs (V - IZR mb) <= Rabs (IZR ma) * IZR rb)
      by (apply Rmult_le_compat_l; assumption).
    assert (Rabs (IZR mb) * Rabs (U - IZR ma) <= Rabs (IZR mb) * IZR ra)
      by (apply Rmult_le_compat_l; assumption).
    assert (Rabs (U - IZR ma) * Rabs (V - IZR mb) <= IZR ra * IZR rb)
      by (apply Rmult_le_compat; assumption).
    lra. }
  pose proof (IZR_div_bounds (ma * mb) scale ltac:(reflexivity)) as [Hq1 Hq2].
  pose proof (IZR_div_bounds E scale ltac:(reflexivity)) as [He1 He2].
  rewrite mult_IZR in Hq1, Hq2.
  rewrite plus_IZR.
  replace (u * v * IZR scale) with (U * V / IZR scale)
    by (unfold U, V; field; lra).
  assert (Hdiv : Rabs (U * V / IZR scale - IZR ma * IZR mb / IZR scale)
                 <= IZR E / IZR scale).
  { replace (U * V / IZR scale - IZR ma * IZR mb / IZR scale)
      with ((U * V - IZR ma * IZR mb) * / IZR scale) by (field; lra).
    rewrite Rabs_mult, (Rabs_pos_eq (/ IZR scale))
      by (left; now apply Rinv_0_lt_compat).
    apply Rmult_le_compat_r; [left; now apply Rinv_0_lt_compat | assumption]. }
  apply Rabs_le. apply Rabs_le_between in Hdiv. lra.
Qed.

Lemma INR_fact_Z (n : nat) : INR (fact n) = IZR (Z.of_nat (fact n)).
Proof. apply INR_IZR_INZ. Qed.

Lemma sin_taylor (a : R) :
  0 <= a <= 3 / 2 ->
  a - a ^ 3 / 6 + a ^ 5 / 120 - a ^ 7 / 5040 <= sin a
  <= a - a ^ 3 / 6 + a ^ 5 / 120 - a ^ 7 / 5040 + a ^ 9 / 362880.
Proof.
  intros [H0 H1].
  pose proof PI2_3_2 as Hpi.
  destruct (SIN a H0 ltac:(lra)) as [Hl Hu].
  unfold sin_lb, sin_ub, sin_approx, sin_term in Hl, Hu.
  cbn [sum_f_R0 Nat.mul Nat.add] in Hl, Hu.
  rewrite !INR_fact_Z in Hl, Hu.
  change (Z.of_nat (fact 1)) with 1%Z in Hl, Hu.
  change (Z.of_nat (fact 3)) with 6%Z in Hl, Hu.
  change (Z.of_nat (fact 5)) with 120%Z in Hl, Hu.
  change (Z.of_nat (fact 7)) with 5040%Z in Hl, Hu.
  assert (E9 : INR (fact 9) = 362880)
    by (rewrite INR_IZR_INZ; apply f_equal; vm_compute; reflexivity).
  rewrite ?E9 in Hu.
  cbn [pow] in Hl, Hu |- *. lra.
Qed.

Lemma cos_taylor (a : R) :
  0 <= a <= 3 / 2 ->
  1 - a ^ 2 / 2 + a ^ 4 / 24 - a ^ 6 / 720 <= cos a
  <= 1 - a ^ 2 / 2 + a ^ 4 / 24 - a ^ 6 / 720 + a ^ 8 / 40320.
Proof.
  intros [H0 H1].
  pose proof PI2_3_2 as Hpi.
  destruct (COS a ltac:(lra) ltac:(lra)) as [Hl Hu].
  unfold cos_lb, cos_ub, cos_approx, cos_term in Hl, Hu.
  cbn [sum_f_R0 Nat.mul Nat.add] in Hl, Hu.
  rewrite !INR_fact_Z in Hl, Hu.
  change (Z.of_nat (fact 0)) with 1%Z in Hl, Hu.
  change (Z.of_nat (fact 2)) with 2%Z in Hl, Hu.
  change (Z.of_nat (fact 4)) with 24%Z in Hl, Hu.
  change (Z.of_nat (fact 6)) with 720%Z in Hl, Hu.
  assert (E8 : INR (fact 8) = 40320)
    by (rewrite INR_IZR_INZ; apply f_equal; vm_compute; reflexivity).
  rewrite ?E8 in Hu.
  cbn [pow] in Hl, Hu |- *. lra.
Qed.

Ltac push_IZR :=
  repeat (progress rewrite ?plus_IZR, ?minus_IZR, ?mult_IZR, ?opp_IZR).

Lemma ratio_bounds (x den : Z) :
  (0 <= x)%Z -> (0 < den)%Z -> (2 * x <= 3 * den)%Z ->
  0 < IZR den /\ 0 <= IZR x / IZR den <= 3 / 2.
Proof.
  intros Hx Hd Hxd.
  apply IZR_le in Hx, Hxd. apply IZR_lt in Hd. rewrite !mult_IZR in Hxd.
  split; [assumption|]. split.
  - apply Rmult_le_pos; [assumption|]. left. now apply Rinv_0_lt_compat.
  - apply Rmult_le_reg_r with (IZR den); [assumption|].
    unfold Rdiv. rewrite Rmult_assoc, Rinv_l by lra. lra.
Qed.

Lemma pow_le_three_halves (a : R) (n : nat) :
  0 <= a <= 3 / 2 -> 0 <= a ^ n <= (3 / 2) ^ n.
Proof.
  intros [H0 H1]. split; [now apply pow_le | now apply pow_incr].
Qed.

Lemma within_sinT (x den : Z) :
  (0 <= x)%Z -> (0 < den)%Z -> (2 * x <= 3 * den)%Z ->
  within (sin (IZR x / IZR den)) (sinT x den).
Proof.
  intros Hx Hd Hxd.
  destruct (ratio_bounds x den Hx Hd Hxd) as [HdR Ha].
  set (a := IZR x / IZR den) in *.
  pose proof (sin_taylor a Ha) as [Hl Hu].
  pose proof (pow_le_three_halves a 9 Ha) as [_ H9].
  unfold within, sinT. cbv zeta. cbn [fst snd].
  match goal with |- context [(scale * ?n / ?d)%Z] =>
    set (N := n); set (Dn := d) end.
  assert (HDn : (0 < Dn)%Z) by (unfold Dn; nia).
  pose proof (IZR_div_bounds (scale * N) Dn HDn) as [Hq1 Hq2].
  assert (EP : IZR (scale * N) / IZR Dn =
               (a - a ^ 3 / 6 + a ^ 5 / 120 - a ^ 7 / 5040) * IZR scale).
  { unfold N, Dn, a. push_IZR. field. lra. }
  rewrite EP in Hq1, Hq2.
  assert (HS : IZR scale = 1000000) by reflexivity.
  rewrite HS in *.
  apply Rabs_le. cbn [pow] in H9. lra.
Qed.

Lemma within_cosT (x den : Z) :
  (0 <= x)%Z -> (0 < den)%Z -> (2 * x <= 3 * den)%Z ->
  within (cos (IZR x / IZR den)) (cosT x den).
Proof.
  intros Hx Hd Hxd.
  destruct (ratio_bounds x den Hx Hd Hxd) as [HdR Ha].
  set (a := IZR x / IZR den) in *.
  pose proof (cos_taylor a Ha) as [Hl Hu].
  pose proof (pow_le_three_halves a 8 Ha) as [_ H8].
  unfold within, cosT. cbv zeta. cbn [fst snd].
  match goal with |- context [(scale * ?n / ?d)%Z] =>
    set (N := n); set (Dn := d) end.
  assert (HDn : (0 < Dn)%Z) by (unfold Dn; nia).
  pose proof (IZR_div_bounds (scale * N) Dn HDn) as [Hq1 Hq2].
  assert (EP : IZR (scale * N) / IZR Dn =
               (1 - a ^ 2 / 2 + a ^ 4 / 24 - a ^ 6 / 720) * IZR scale).
  { unfold N, Dn, a. push_IZR. field. lra. }
  rewrite EP in Hq1, Hq2.
  assert (HS : IZR scale = 1000000) by reflexivity.
  rewrite HS in *.
  apply Rabs_le. cbn [pow] in H8. lra.
Qed.

Lemma within_double (t : R) (s c : Z * Z) :
  within (sin t) s -> within (cos t) c ->
  within (sin (2 * t)) (fst (double (s, c))) /\
  within (cos (2 * t)) (snd (double (s, c))).
Proof.
  intros Hs Hc. cbn [double fst snd]. split.
  - rewrite sin_2a.
    replace (2 * sin t * cos t) with (IZR 2 * (sin t * cos t)) by ring.
    apply within_scale, within_mul; assumption.
  - rewrite cos_2a_sin.
    replace (1 - 2 * sin t * sin t)
      with (IZR 1 + IZR (-2) * (sin t * sin t)) by ring.
    apply within_add; [apply within_const|].
    apply within_scale, within_mul; assumption.
Qed.

Lemma within_trig (x den : Z) :
  (0 <= x)%Z -> (0 < den)%Z -> (2 * x <= 3 * den)%Z ->
  within (sin (4 * (IZR x / IZR den))) (fst (trig x den)) /\
  within (cos (4 * (IZR x / IZR den))) (snd (trig x den)).
Proof.
  intros Hx Hd Hxd. unfold trig.
  replace (4 * (IZR x / IZR den)) with (2 * (2 * (IZR x / IZR den))) by ring.
  destruct (double (sinT x den, cosT x den)) as [s c] eqn:E.
  apply within_double.
  - change s with (fst (s, c)). rewrite <- E.
    apply within_double; [now apply within_sinT | now apply within_cosT].
  - change c with (snd (s, c)). rewrite <- E.
    apply within_double; [now apply within_sinT | now apply within_cosT].
Qed.

Lemma within_noise (x z : Z) :
  (0 <= x < 50)%Z -> (0 <= z < 50)%Z ->
  within (noise (IZR x) (IZR z)) (noiseA x z).
Proof.
  intros Hx Hz. unfold noise, noiseA, trig3, noiseFrom.
  assert (T : forall A den, (0 < den)%Z -> (100 <= 3 * den)%Z ->
            within (IZR A * (sin (4 * (IZR x / IZR den))
                             * cos (4 * (IZR z / IZR den))))
                   (ascale A (amul (fst (trig x den)) (snd (trig z den))))).
  { intros A den Hd Hden. apply within_scale, within_mul.
    - apply within_trig; lia.
    - apply within_trig; lia. }
  replace (sin (IZR x * 0.1) * cos (IZR z * 0.1) * 2)
    with (IZR 2 * (sin (4 * (IZR x / IZR 40)) * cos (4 * (IZR z / IZR 40)))).
  2:{ replace (4 * (IZR x / 40)) with (IZR x * 0.1) by lra.
      replace (4 * (IZR z / 40)) with (IZR z * 0.1) by lra. ring. }
  replace (sin (IZR x * 0.05) * cos (IZR z * 0.05) * 4)
    with (IZR 4 * (sin (4 * (IZR x / IZR 80)) * cos (4 * (IZR z / IZR 80)))).
  2:{ replace (4 * (IZR x / 80)) with (IZR x * 0.05) by lra.
      replace (4 * (IZR z / 80)) with (IZR z * 0.05) by lra. ring. }
  replace (sin (IZR x * 0.02) * cos (IZR z * 0.02) * 8)
    with (IZR 8 * (sin (4 * (IZR x / IZR 200)) * cos (4 * (IZR z / IZR 200)))).
  2:{ replace (4 * (IZR x / 200)) with (IZR x * 0.02) by lra.
      replace (4 * (IZR z / 200)) with (IZR z * 0.02) by lra. ring. }
  repeat apply within_add; apply T; lia.
Qed.

Lemma grid_checked :
  forallb (fun p =>
    forallb (fun q => lowFrom (fst p) (fst q) (snd p) (snd q)) trigTable)
    trigTable = true.
Proof. vm_compute. reflexivity. Qed.

Lemma forallb_table {A B} (g : A -> B) (P : B -> B -> bool) (l : list A) :
  forallb (fun p => forallb (P p) (map g l)) (map g l) = true ->
  forall x z, In x l -> In z l -> P (g x) (g z) = true.
Proof.
  intros H x z Hx Hz.
  rewrite forallb_forall in H. specialize (H (g x) (in_map g l x Hx)).
  rewrite forallb_forall in H. exact (H (g z) (in_map g l z Hz)).
Qed.

Lemma falloff_upper (x z : Z) :
  (1 - distFromCenter x z / maxDist
   <= IZR (2000 - Z.sqrt (dist2 x z * 10000)) / 2000)%R.
Proof.
  rewrite maxDist_eq, distFromCenter_sqrt, minus_IZR.
  pose proof (dist2_nonneg x z) as H0.
  set (q := Z.sqrt (dist2 x z * 10000)).
  assert (Hq : (0 <= q /\ q * q <= dist2 x z * 10000)%Z).
  { unfold q. split; [apply Z.sqrt_nonneg|].
    apply Z.sqrt_spec. lia. }
  destruct Hq as [Hq0 Hq1]. apply IZR_le in Hq0, Hq1, H0.
  rewrite !mult_IZR in Hq1.
  assert (Hs : IZR q / 100 <= sqrt (IZR (dist2 x z))).
  { rewrite <- (sqrt_square (IZR q / 100)) by lra.
    apply sqrt_le_1_alt. lra. }
  lra.
Qed.

Lemma lowCell_sound (x z : Z) :
  (0 <= x < 50)%Z -> (0 <= z < 50)%Z ->
  (distFromCenter x z < maxDist)%R ->
  lowCell x z = true ->
  (height x z < 5)%R.
Proof.
  intros Hx Hz Hin Hc.
  pose proof (within_noise x z Hx Hz) as Hn.
  pose proof (falloff_upper x z) as Hf.
  pose proof (falloff_bounds x z Hin) as [Hf0 Hf1].
  unfold lowCell, lowFrom in Hc.
  replace (dist2 x z <? 400)%Z with true in Hc
    by (symmetry; apply Z.ltb_lt; now apply included_iff).
  cbv zeta in Hc. fold (noiseA x z) in Hc. apply Z.ltb_lt in Hc.
  unfold within in Hn. apply Rabs_le_between in Hn.
  set (n := noise (IZR x) (IZR z)) in *.
  set (f := 1 - distFromCenter x z / maxDist) in *.
  set (F := (2000 - Z.sqrt (dist2 x z * 10000))%Z) in *.
  set (m := fst (noiseA x z)) in *. set (r := snd (noiseA x z)) in *.
  assert (HF : 0 < IZR F) by lra.
  assert (HU : n * IZR scale <= IZR (Z.max 0 (m + r)) /\
               0 <= IZR (Z.max 0 (m + r))).
  { split.
    - eapply Rle_trans with (IZR (m + r)).
      + rewrite plus_IZR. lra.
      + apply IZR_le. lia.
    - apply IZR_le. lia. }
  destruct HU as [HU1 HU0].
  apply IZR_lt in Hc. rewrite !mult_IZR in Hc.
  change (IZR scale) with 1000000 in *.
  unfold height. fold n. fold f.
  apply Rmax_lub_lt; [lra|].
  destruct (Rle_dec n 0) as [Hneg|Hpos].
  - assert (n * f <= 0) by nra. lra.
  - assert (n * f <= n * (IZR F / 2000)) by (apply Rmult_le_compat_l; lra).
    assert (n * 1000000 * IZR F <= IZR (Z.max 0 (m + r)) * IZR F)
      by (apply Rmult_le_compat_r; lra).
    lra.
Qed.

(** No column of the shipped grid is higher than 5. *)
Lemma voxelHeight_le_5 (x z : Z) :
  In x (range 0 size) -> In z (range 0 size) ->
  (distFromCenter x z < maxDist)%R ->
  (voxelHeight x z <= 5)%Z.
Proof.
  intros Hx Hz Hin.
  pose proof (forallb_table (fun x => (x, trig3 x))
                (fun p q => lowFrom (fst p) (fst q) (snd p) (snd q))
                (range 0 size) grid_checked x z Hx Hz) as G.
  apply in_range in Hx, Hz. unfold size in Hx, Hz.
  pose proof (lowCell_sound x z Hx Hz Hin G) as H5.
  unfold voxelHeight.
  pose proof (Zfloor_bound (height x z)) as [Hlo _].
  assert (Hlt : IZR (Zfloor (height x z)) < IZR 5) by lra.
  apply lt_IZR in Hlt. lia.
Qed.

End ShippedGrid.

(** ** What a column pushes *)

Lemma after_forEach_cons {A} (a : A) (l : list A) (body : A -> M unit) n :
  (forall a, framed (body a)) ->
  after (forEach (a :: l) body) n = after (forEach l body) (after (body a) n).
Proof.
  intros Hb. cbn [forEach]. rewrite after_bind; [reflexivity|].
  intros _. now apply framed_forEach.
Qed.

Lemma after_forEach_nil {A} (body : A -> M unit) n : after (forEach [] body) n = n.
Proof. reflexivity. Qed.

Lemma emitted_forEach_nil {A} (body : A -> M unit) n :
  emitted (forEach [] body) n = [].
Proof. reflexivity. Qed.

Section Column.

Variable rnd : nat -> Q.

Lemma emitted_leaf x y z dx dz dy n :
  emitted (leaf rnd x y z dx dz dy) n =
  if Qltb (rnd n) 0.7 then [leafVoxel x y z (dx, dz, dy)] else [].
Proof.
  unfold leaf, emitted, bind, Math_random. cbn.
  now destruct (Qltb (rnd n) 0.7).
Qed.

Lemma after_leaf x y z dx dz dy n : after (leaf rnd x y z dx dz dy) n = S n.
Proof.
  unfold leaf, after, bind, Math_random. cbn.
  now destruct (Qltb (rnd n) 0.7).
Qed.

Lemma emitted_tree x y z n :
  emitted (tree rnd x y z) n = trunk x y z ++ canopy rnd x y z n.
Proof.
  unfold tree.
  rewrite emitted_bind by (intros _; auto 8 with framed).
  rewrite emitted_bind by (intros _; auto 8 with framed).
  change (range (-1) 2) with [-1; 0; 1]%Z.
  change (range 0 2) with [0; 1]%Z.
  repeat (rewrite ?emitted_forEach_cons, ?after_forEach_cons,
            ?after_forEach_nil, ?emitted_forEach_nil,
            ?emitted_leaf, ?after_leaf by auto 8 with framed).
  unfold trunk, canopy, canopyCells, pushed, after.
  cbn [flat_map map combine seq app fst snd Nat.add push fresh drawn voxelData].
  rewrite ?app_nil_r, <- ?app_assoc.
  reflexivity.
Qed.

End Column.

Section Levels.

Variable rnd : nat -> Q.

Lemma result_treeTest vh y n :
  result (treeTest rnd vh y) n = treePlaced rnd vh y n.
Proof.
  unfold treeTest, treePlaced, result.
  destruct ((y =? vh)%Z && (5 <? y)%Z); reflexivity.
Qed.

Lemma pushed_treeTest vh y n : pushed (treeTest rnd vh y) n = [].
Proof.
  unfold treeTest, pushed.
  destruct ((y =? vh)%Z && (5 <? y)%Z); reflexivity.
Qed.

Lemma after_treeTest vh y n :
  after (treeTest rnd vh y) n =
  if (y =? vh)%Z && (5 <? y)%Z then S n else n.
Proof.
  unfold treeTest, after.
  destruct ((y =? vh)%Z && (5 <? y)%Z); reflexivity.
Qed.

(** One level pushes its fill voxel last, after the tree if one is placed;
    the tree's leaves use the draws that follow the placement draw. *)
Lemma emitted_level x z vh y n :
  emitted (level rnd x z vh y) n =
  (if treePlaced rnd vh y n then trunk x y z ++ canopy rnd x y z (S n) else [])
  ++ [fill x z vh y].
Proof.
  unfold level.
  rewrite emitted_bind by (intros; auto 8 with framed).
  rewrite pushed_treeTest, result_treeTest, after_treeTest. cbn [app].
  rewrite emitted_bind by (intros; auto with framed).
  rewrite emitted_push. f_equal.
  unfold treePlaced.
  destruct ((y =? vh)%Z && (5 <? y)%Z); cbn [andb]; [|reflexivity].
  destruct (Qltb (rnd n) 0.02); [|reflexivity].
  rewrite <- emitted_pushed. apply emitted_tree.
Qed.

(** Below the top of the column a level makes no draw. *)
Lemma after_level_below x z vh y n :
  y <> vh -> after (level rnd x z vh y) n = n.
Proof.
  intros Hy. unfold level.
  rewrite after_bind by (intros; auto 8 with framed).
  rewrite result_treeTest, after_treeTest.
  unfold treePlaced.
  replace (y =? vh)%Z with false by (symmetry; now apply Z.eqb_neq).
  cbn [andb].
  rewrite after_bind by (intros; auto with framed).
  reflexivity.
Qed.

Lemma lower_levels x z vh k n :
  (0 <= k <= vh)%Z ->
  emitted (forEach (range 0 k) (level rnd x z vh)) n =
    map (fill x z vh) (range 0 k) /\
  after (forEach (range 0 k) (level rnd x z vh)) n = n.
Proof.
  intros [Hk0 Hk]. revert Hk.
  pattern k. apply natlike_ind; [| |exact Hk0]; clear k Hk0.
  - intros _. rewrite range_empty by lia. split; reflexivity.
  - intros k Hk0 IH Hk. destruct IH as [IHe IHa]; [lia|].
    assert (Hf : forall a, framed (level rnd x z vh a)) by auto with framed.
    replace (Z.succ k) with (k + 1)%Z by lia.
    rewrite range_snoc by lia. split.
    + rewrite emitted_forEach_app, IHe, IHa, map_app by assumption.
      f_equal. rewrite emitted_forEach_cons, emitted_forEach_nil by assumption.
      rewrite emitted_level, app_nil_r.
      unfold treePlaced.
      replace (k =? vh)%Z with false by (symmetry; apply Z.eqb_neq; lia).
      reflexivity.
    + assert (Ha : forall l1 l2 m,
                after (forEach (l1 ++ l2) (level rnd x z vh)) m =
                after (forEach l2 (level rnd x z vh))
                      (after (forEach l1 (level rnd x z vh)) m)).
      { induction l1 as [|a l1 IHl]; intros l2 m; [reflexivity|].
        rewrite <- app_comm_cons, !after_forEach_cons by assumption.
        apply IHl. }
      rewrite Ha, IHa, after_forEach_cons, after_forEach_nil by assumption.
      apply after_level_below. lia.
Qed.

(** The emission order of a column: the fill voxels below the top, then the
    tree if one is placed, then the top fill voxel. *)
Lemma emitted_column x z vh n :
  (0 <= vh)%Z ->
  emitted (column rnd x z vh) n =
  map (fill x z vh) (range 0 vh)
  ++ (if treePlaced rnd vh vh n
      then trunk x vh z ++ canopy rnd x vh z (S n) else [])
  ++ [fill x z vh vh].
Proof.
  intros Hvh. unfold column.
  assert (Hf : forall a, framed (level rnd x z vh a)) by auto with framed.
  destruct (lower_levels x z vh vh n) as [He Ha]; [lia|].
  rewrite range_snoc, emitted_forEach_app, He, Ha by (assumption || lia).
  f_equal.
  rewrite emitted_forEach_cons, emitted_forEach_nil, app_nil_r by assumption.
  apply emitted_level.
Qed.

Lemma emitted_cell_in x z n :
  (distFromCenter x z < maxDist)%R ->
  emitted (cell rnd x z) n = emitted (column rnd x z (voxelHeight x z)) n.
Proof. intros H. unfold cell. now destruct (Rlt_dec _ _). Qed.

Lemma emitted_cell_out x z n :
  ~ (distFromCenter x z < maxDist)%R -> emitted (cell rnd x z) n = [].
Proof. intros H. unfold cell. now destruct (Rlt_dec _ _). Qed.

(** Every voxel of the final array was pushed while some column of the grid
    was being processed. *)
Lemma voxels_from_cell v :
  In v (voxels rnd) ->
  exists x z n, In x (range 0 size) /\ In z (range 0 size) /\
                In v (emitted (cell rnd x z) n).
Proof.
  unfold voxels, generate. intros H.
  apply in_emitted_forEach in H as (x & n1 & Hx & H);
    [|intros; auto with framed].
  apply in_emitted_forEach in H as (z & n2 & Hz & H);
    [|intros; auto with framed].
  now exists x, z, n2.
Qed.

(** Every column of the grid is processed, after some number of draws. *)
Lemma cell_in_voxels x z :
  In x (range 0 size) -> In z (range 0 size) ->
  exists n, forall v, In v (emitted (cell rnd x z) n) -> In v (voxels rnd).
Proof.
  intros Hx Hz. unfold voxels, generate.
  destruct (forEach_runs (range 0 size)
              (fun x => forEach (range 0 size) (fun z => cell rnd x z))
              0%nat x) as [n1 H1]; [intros; auto with framed | assumption |].
  destruct (forEach_runs (range 0 size) (fun z => cell rnd x z) n1 z)
    as [n2 H2]; [intros; auto with framed | assumption |].
  exists n2. intros v Hv. apply H1, H2, Hv.
Qed.

End Levels.

(** ** Where the voxels of a column are *)

Lemma in_canopyCells (d : Z * Z * Z) :
  In d canopyCells <->
  (-1 <= fst (fst d) <= 1 /\ -1 <= snd (fst d) <= 1 /\ 0 <= snd d <= 1)%Z.
Proof.
  destruct d as [[dx dz] dy]. cbn [fst snd]. split.
  - intros H. cbv in H.
    repeat (destruct H as [H|H]; [injection H as <- <- <-; lia|]).
    destruct H.
  - intros (Hx & Hz & Hy).
    assert (dx = -1 \/ dx = 0 \/ dx = 1)%Z as Dx by lia.
    assert (dz = -1 \/ dz = 0 \/ dz = 1)%Z as Dz by lia.
    assert (dy = 0 \/ dy = 1)%Z as Dy by lia.
    destruct Dx as [->|[->| ->]], Dz as [->|[->| ->]], Dy as [->| ->];
      cbv; tauto.
Qed.

Lemma in_canopy rnd x y z m v :
  In v (canopy rnd x y z m) ->
  exists d, In d canopyCells /\ v = leafVoxel x y z d.
Proof.
  unfold canopy. intros H. apply in_flat_map in H as ([k d] & Hkd & Hv).
  cbn [fst snd] in Hv. exists d. split.
  - now apply in_combine_r in Hkd.
  - destruct (Qltb _ _); [|destruct Hv].
    destruct Hv as [<-|[]]. reflexivity.
Qed.

(** A voxel pushed for a column is one of its fill voxels or, on a column
    higher than 5, a trunk or leaf voxel of the tree on its top. *)
Lemma cell_voxel_cases rnd x z n v :
  In v (emitted (cell rnd x z) n) ->
  (distFromCenter x z < maxDist)%R /\
  ((exists y, (0 <= y <= voxelHeight x z)%Z /\ v = fill x z (voxelHeight x z) y)
   \/ ((5 < voxelHeight x z)%Z /\
       (In v (trunk x (voxelHeight x z) z) \/
        exists d, In d canopyCells /\ v = leafVoxel x (voxelHeight x z) z d))).
Proof.
  intros H.
  destruct (Rlt_dec (distFromCenter x z) maxDist) as [Hin|Hout];
    [|rewrite emitted_cell_out in H by assumption; destruct H].
  split; [assumption|].
  rewrite emitted_cell_in in H by assumption.
  pose proof (voxelHeight_pos x z) as Hpos.
  rewrite emitted_column in H by lia.
  apply in_app_or in H as [H|H]; [|apply in_app_or in H as [H|H]].
  - left. apply in_map_iff in H as (y & <- & Hy). apply in_range in Hy.
    exists y. split; [lia | reflexivity].
  - right. unfold treePlaced in H.
    destruct (5 <? voxelHeight x z)%Z eqn:E5;
      [|rewrite andb_false_r in H; destruct H].
    apply Z.ltb_lt in E5. split; [assumption|].
    destruct (_ && _ && _); [|destruct H].
    apply in_app_or in H as [H|H]; [now left|right].
    eapply in_canopy, H.
  - left. destruct H as [<-|[]]. exists (voxelHeight x z). split; [lia|reflexivity].
Qed.

(** Every fill voxel of an included column of the grid is in the final array. *)
Lemma fill_in_voxels rnd x z y :
  In x (range 0 size) -> In z (range 0 size) ->
  (distFromCenter x z < maxDist)%R ->
  (0 <= y <= voxelHeight x z)%Z ->
  In (fill x z (voxelHeight x z) y) (voxels rnd).
Proof.
  intros Hx Hz Hin Hy.
  destruct (cell_in_voxels rnd x z Hx Hz) as [n Hn]. apply Hn.
  rewrite emitted_cell_in, emitted_column by (assumption || lia).
  destruct (Z.eq_dec y (voxelHeight x z)) as [->|Hne].
  - apply in_or_app. right. apply in_or_app. right. now left.
  - apply in_or_app. left. apply in_map. apply in_range. lia.
Qed.

(** Every voxel, tree voxels included, lies inside the circle of radius 20
    around the island's axis. *)
Lemma voxel_radius rnd v :
  In v (voxels rnd) -> (px v * px v + pz v * pz v < 400)%Z.
Proof.
  intros H. apply voxels_from_cell in H as (x & z & n & _ & _ & H).
  apply cell_voxel_cases in H as [Hin H].
  pose proof (proj1 (included_iff x z) Hin) as Hd. unfold dist2 in Hd.
  destruct H as [(y & _ & ->) | [Htall H]].
  - exact Hd.
  - pose proof (tall_column_inland x z Hin Htall) as Hd'. unfold dist2 in Hd'.
    destruct H as [H | ([[dx dz] dy] & Hd0 & ->)].
    + destruct H as [<-|[<-|[]]]; exact Hd.
    + apply in_canopyCells in Hd0. cbn [fst snd] in Hd0.
      unfold px, pz. cbn [leafVoxel position fst snd].
      revert Hd'. generalize (x - centerX)%Z (z - centerZ)%Z. intros a b Hab.
      assert (-12 <= a <= 12)%Z by nia.
      assert (-12 <= b <= 12)%Z by nia.
      assert ((a + dx) * (a + dx) <= 169)%Z by nia.
      assert ((b + dz) * (b + dz) <= 169)%Z by nia.
      lia.
Qed.

(** On the grid no column is high enough to carry a tree, so every voxel of
    the final array is a fill voxel of the column it stands on. *)
Lemma voxel_is_fill rnd v :
  In v (voxels rnd) ->
  exists x z y,
    In x (range 0 size) /\ In z (range 0 size) /\
    (distFromCenter x z < maxDist)%R /\
    (0 <= y <= voxelHeight x z)%Z /\
    v = fill x z (voxelHeight x z) y.
Proof.
  intros Hv. apply voxels_from_cell in Hv as (x & z & n & Hx & Hz & Hc).
  apply cell_voxel_cases in Hc as [Hin [(y & Hy & ->) | [Htall _]]].
  - now exists x, z, y.
  - pose proof (voxelHeight_le_5 x z Hx Hz Hin). lia.
Qed.

(** ** The specification's formulas *)

Lemma H_noise (x z : R) : H x z = noise x z.
Proof.
  unfold H, noise.
  now rewrite !(Rmult_comm x), !(Rmult_comm z).
Qed.

Lemma maxDist_spec : (0.4 * IZR size)%R = maxDist.
Proof. unfold maxDist. ring. Qed.

Lemma flooredHeight_eq (x z : Z) : flooredHeight x z = Zfloor (height x z).
Proof. unfold flooredHeight, height. now rewrite H_noise, maxDist_spec. Qed.

Lemma center_in_grid : In 25%Z (range 0 size).
Proof. apply in_range. unfold size. lia. Qed.

Lemma center_included : (distFromCenter 25 25 < maxDist)%R.
Proof. apply included_iff. reflexivity. Qed.

Lemma ruleColor_fillColor (vh y : Z) :
  (1 <= vh)%Z -> fillColor vh y = ruleColor vh y.
Proof.
  intros Hvh. unfold fillColor, ruleColor.
  destruct (Z.eqb_spec y 0) as [->|Hy]; [|reflexivity].
  replace (0 =? vh)%Z with false by (symmetry; apply Z.eqb_neq; lia).
  reflexivity.
Qed.

(** ** The specification's statements about the terrain generator *)

(** C1, as stated, fails at the centre column (25, 25): the column height the
    generator uses there is not the floored, clamped, falloff-scaled sample. *)
Lemma voxelHeight_not_floor_at_center :
  (distFromCenter 25 25 < 0.4 * IZR size)%R /\
  voxelHeight 25 25 <> flooredHeight 25 25.
Proof.
  split.
  - rewrite maxDist_spec. exact center_included.
  - rewrite flooredHeight_eq. unfold voxelHeight. lia.
Qed.

(** C1, amended: for every included cell the column height is the floor of
    [max(0, H(x, z) * (1 - distFromCenter / (0.4 * size)))] plus one, and the
    column's fill voxels run over the elevations from 0 to that value. *)
Theorem voxelHeight_floor_plus_one (rnd : nat -> Q) (x z : Z) (n : nat) :
  (distFromCenter x z < 0.4 * IZR size)%R ->
  voxelHeight x z = (flooredHeight x z + 1)%Z /\
  emitted (cell rnd x z) n =
    map (fill x z (flooredHeight x z + 1)) (range 0 (flooredHeight x z + 1))
    ++ treeAt rnd x z (flooredHeight x z + 1) n
    ++ [fill x z (flooredHeight x z + 1) (flooredHeight x z + 1)].
Proof.
  intros Hin. rewrite maxDist_spec in Hin.
  assert (E : voxelHeight x z = (flooredHeight x z + 1)%Z).
  { rewrite flooredHeight_eq. reflexivity. }
  split; [exact E|].
  rewrite <- E, emitted_cell_in by assumption.
  apply emitted_column. pose proof (voxelHeight_pos x z). lia.
Qed.

Lemma voxelHeight_floor_plus_one_witness :
  voxelHeight 25 25 = (flooredHeight 25 25 + 1)%Z /\
  emitted (cell zeros 25 25) 0 =
    map (fill 25 25 (flooredHeight 25 25 + 1))
        (range 0 (flooredHeight 25 25 + 1))
    ++ treeAt zeros 25 25 (flooredHeight 25 25 + 1) 0
    ++ [fill 25 25 (flooredHeight 25 25 + 1) (flooredHeight 25 25 + 1)].
Proof.
  apply (voxelHeight_floor_plus_one zeros 25 25 0).
  rewrite maxDist_spec. exact center_included.
Defined.

(** C3: in every included column the fill voxel at each elevation [y] from 0
    to [voxelHeight] has the colour the rule gives in the stated precedence
    (bedrock at 0, else grass on a top above 3, else sand on a top at most 3,
    else dirt); the topmost fill voxel is sand iff [voxelHeight <= 3] and
    grass iff [voxelHeight > 3]. *)
Theorem fill_colour_rule (rnd : nat -> Q) (x z : Z) (n : nat) :
  (distFromCenter x z < maxDist)%R ->
  let vh := voxelHeight x z in
  let ruleFill := fun y =>
    {| position := (x - centerX, y, z - centerZ)%Z; color := ruleColor vh y |} in
  emitted (cell rnd x z) n =
    map ruleFill (range 0 vh) ++ treeAt rnd x z vh n ++ [ruleFill vh] /\
  (color (ruleFill vh) = sand <-> (vh <= 3)%Z) /\
  (color (ruleFill vh) = grass <-> (3 < vh)%Z).
Proof.
  intros Hin vh ruleFill.
  pose proof (voxelHeight_pos x z) as Hpos. fold vh in Hpos.
  assert (E : forall y, fill x z vh y = ruleFill y).
  { intros y. unfold fill, ruleFill. now rewrite ruleColor_fillColor. }
  split; [|split].
  - rewrite emitted_cell_in by assumption. fold vh.
    rewrite emitted_column by lia.
    rewrite (map_ext _ _ E), E. reflexivity.
  - cbn [ruleFill color]. unfold ruleColor.
    replace (vh =? 0)%Z with false by (symmetry; apply Z.eqb_neq; lia).
    rewrite Z.eqb_refl. cbn [andb].
    destruct (Z.ltb_spec 3 vh) as [Hlt|Hge].
    + split; [discriminate | lia].
    + replace (vh <=? 3)%Z with true by (symmetry; apply Z.leb_le; lia).
      split; [lia | reflexivity].
  - cbn [ruleFill color]. unfold ruleColor.
    replace (vh =? 0)%Z with false by (symmetry; apply Z.eqb_neq; lia).
    rewrite Z.eqb_refl. cbn [andb].
    destruct (Z.ltb_spec 3 vh) as [Hlt|Hge].
    + split; [lia | reflexivity].
    + replace (vh <=? 3)%Z with true by (symmetry; apply Z.leb_le; lia).
      split; [discriminate | lia].
Qed.

Lemma fill_colour_rule_witness :
  let vh := voxelHeight 25 25 in
  let ruleFill := fun y =>
    {| position := (25 - centerX, y, 25 - centerZ)%Z; color := ruleColor vh y |} in
  emitted (cell zeros 25 25) 0 =
    map ruleFill (range 0 vh) ++ treeAt zeros 25 25 vh 0 ++ [ruleFill vh] /\
  (color (ruleFill vh) = sand <-> (vh <= 3)%Z) /\
  (color (ruleFill vh) = grass <-> (3 < vh)%Z).
Proof.
  apply (fill_colour_rule zeros 25 25 0). exact center_included.
Defined.

Lemma radialDistance_eq (x z : Z) : radialDistance x z = distFromCenter x z.
Proof.
  unfold radialDistance, distFromCenter. rewrite centerX_eq, centerZ_eq.
  rewrite !minus_IZR. unfold size. f_equal. field.
Qed.

(** C4: the generator emits voxels for a column if and only if the column's
    radial distance from the island centre is strictly less than
    [0.4 * size]; the final array has a voxel standing on a grid cell exactly
    when that cell is inside that radius, and every voxel of the array
    stands inside it, so no voxel exists for an excluded column. *)
Theorem coastline (rnd : nat -> Q) :
  (forall x z n,
     emitted (cell rnd x z) n <> [] <->
     (radialDistance x z < 0.4 * IZR size)%R) /\
  (forall x z,
     In x (range 0 size) -> In z (range 0 size) ->
     ((exists v, In v (voxels rnd) /\
                 px v = (x - size / 2)%Z /\ pz v = (z - size / 2)%Z) <->
      (radialDistance x z < 0.4 * IZR size)%R)) /\
  (forall v, In v (voxels rnd) ->
             (sqrt (IZR (px v) ^ 2 + IZR (pz v) ^ 2) < 0.4 * IZR size)%R).
Proof.
  rewrite maxDist_spec. split; [|split].
  - intros x z n. rewrite radialDistance_eq. split.
    + intros Hne.
      destruct (Rlt_dec (distFromCenter x z) maxDist) as [Hin|Hout];
        [assumption|].
      now rewrite emitted_cell_out in Hne.
    + intros Hin. rewrite emitted_cell_in by assumption.
      pose proof (voxelHeight_pos x z).
      rewrite emitted_column by lia.
      intros E. apply app_eq_nil in E as [_ E].
      apply app_eq_nil in E as [_ E]. discriminate.
  - intros x z Hx Hz. rewrite radialDistance_eq.
    change (size / 2)%Z with centerX. split.
    + intros (v & Hv & Hpx & Hpz).
      apply voxel_radius in Hv. apply included_iff. unfold dist2.
      change centerZ with centerX. now rewrite <- Hpx, <- Hpz.
    + intros Hin. exists (fill x z (voxelHeight x z) 0). split; [|now split].
      apply fill_in_voxels; try assumption.
      pose proof (voxelHeight_pos x z). lia.
  - intros v Hv. apply voxel_radius in Hv. rewrite maxDist_eq.
    replace (IZR (px v) ^ 2 + IZR (pz v) ^ 2)%R
      with (IZR (px v * px v + pz v * pz v))
      by (rewrite plus_IZR, !mult_IZR; ring).
    apply (sqrt_IZR_lt _ 20); [nia | lia | lia].
Qed.

Lemma coastline_witness :
  emitted (cell zeros 25 25) 0 <> [] /\
  exists v, In v (voxels zeros) /\
            px v = (25 - size / 2)%Z /\ pz v = (25 - size / 2)%Z.
Proof.
  destruct (coastline zeros) as (Hcell & Hgrid & _).
  assert (Hin : (radialDistance 25 25 < 0.4 * IZR size)%R)
    by (rewrite radialDistance_eq, maxDist_spec; exact center_included).
  split.
  - apply (proj2 (Hcell 25%Z 25%Z 0%nat)), Hin.
  - apply (proj2 (Hgrid 25%Z 25%Z center_in_grid center_in_grid)), Hin.
Defined.

(** C6: every voxel of the generated sequence, fill or tree, that has
    elevation 0 is bedrock, and none is higher than the computed height,
    plus 4, of the column that pushed it, nor of the column it stands on. *)
Theorem bedrock_and_ceiling (rnd : nat -> Q) (v : VoxelDatum) :
  In v (voxels rnd) ->
  (py v = 0%Z -> color v = bedrock) /\
  (exists x z n,
     In x (range 0 size) /\ In z (range 0 size) /\
     In v (emitted (cell rnd x z) n) /\
     (py v <= voxelHeight x z + 4)%Z) /\
  (py v <= voxelHeight (px v + centerX) (pz v + centerZ) + 4)%Z.
Proof.
  intros Hv.
  assert (Hown : (py v <= voxelHeight (px v + centerX) (pz v + centerZ) + 4)%Z).
  { destruct (voxel_is_fill rnd v Hv) as (x & z & y & _ & _ & _ & Hy & ->).
    unfold px, py, pz. cbn [fill position fst snd].
    replace (x - centerX + centerX)%Z with x by lia.
    replace (z - centerZ + centerZ)%Z with z by lia. lia. }
  destruct (voxels_from_cell rnd v Hv) as (x & z & n & Hx & Hz & Hc).
  pose proof (voxelHeight_pos x z) as Hpos.
  destruct (cell_voxel_cases rnd x z n v Hc) as [_ Hcases].
  assert (Hy : (py v = 0%Z -> color v = bedrock) /\
               (py v <= voxelHeight x z + 4)%Z).
  { destruct Hcases as [(y & Hy & ->) | [Htall [Ht | (d & Hd & ->)]]].
    - split; [|cbn; lia].
      unfold py. cbn [fill position color fst snd]. intros ->.
      unfold fillColor.
      replace (0 =? voxelHeight x z)%Z with false
        by (symmetry; apply Z.eqb_neq; lia).
      reflexivity.
    - destruct Ht as [<-|[<-|[]]]; unfold py; cbn [position fst snd];
        split; lia.
    - destruct d as [[dx dz] dy]. apply in_canopyCells in Hd.
      cbn [fst snd] in Hd. unfold py. cbn [leafVoxel position fst snd].
      split; lia. }
  split; [apply Hy|]. split; [|exact Hown].
  exists x, z, n. repeat split; try assumption. apply Hy.
Qed.

Lemma origin_bedrock_in_voxels (rnd : nat -> Q) :
  In {| position := (0, 0, 0)%Z; color := bedrock |} (voxels rnd).
Proof.
  pose proof (voxelHeight_pos 25 25) as Hpos.
  pose proof (fill_in_voxels rnd 25 25 0 center_in_grid center_in_grid
                center_included) as H.
  unfold fill in H. rewrite ruleColor_fillColor in H by assumption.
  apply H. lia.
Qed.

Lemma bedrock_and_ceiling_witness :
  let v := {| position := (0, 0, 0)%Z; color := bedrock |} in
  (py v = 0%Z -> color v = bedrock) /\
  (exists x z n,
     In x (range 0 size) /\ In z (range 0 size) /\
     In v (emitted (cell zeros x z) n) /\
     (py v <= voxelHeight x z + 4)%Z) /\
  (py v <= voxelHeight (px v + centerX) (pz v + centerZ) + 4)%Z.
Proof.
  exact (bedrock_and_ceiling zeros _ (origin_bedrock_in_voxels zeros)).
Defined.

(** C8: for the grid of size 50, whatever the random draws, the generated
    sequence is not empty, every voxel is at a distance less than 20 from the
    island's axis in the x-z plane, and some voxel is bedrock. *)
Theorem island_of_size_50 (rnd : nat -> Q) :
  size = 50%Z /\
  voxels rnd <> [] /\
  (forall v, In v (voxels rnd) ->
             (sqrt (IZR (px v) ^ 2 + IZR (pz v) ^ 2) < 20)%R) /\
  (exists v, In v (voxels rnd) /\ color v = bedrock).
Proof.
  pose proof (origin_bedrock_in_voxels rnd) as H0.
  split; [reflexivity|]. split; [|split].
  - intros E. rewrite E in H0. destruct H0.
  - intros v Hv. apply voxel_radius in Hv.
    replace (IZR (px v) ^ 2 + IZR (pz v) ^ 2)%R
      with (IZR (px v * px v + pz v * pz v))
      by (rewrite plus_IZR, !mult_IZR; ring).
    apply (sqrt_IZR_lt _ 20); [nia | lia | lia].
  - eexists. split; [exact H0 | reflexivity].
Qed.

(** ** Trees *)

(** The [y] loop run at the cell (25, 25) for a column height of 6, with
    every draw equal to 0: the six lower fill voxels, the trunk, the 18
    leaves, and the top fill voxel last.  (The height is given to the loop
    here; the height field of the grid itself stays at or below 5, see
    [voxelHeight_le_5].) *)
Lemma column_of_height_6 :
  emitted (column zeros 25 25 6) 0 =
  map (fun y => {| position := (0, y, 0)%Z;
                   color := if (y =? 0)%Z then bedrock else dirt |})
      [0; 1; 2; 3; 4; 5]%Z
  ++ [ {| position := (0, 7, 0)%Z; color := "#8B4513" |};
       {| position := (0, 8, 0)%Z; color := "#8B4513" |} ]
  ++ map (fun d : Z * Z * Z =>
            let '(dx, dz, dy) := d in
            {| position := (dx, 9 + dy, dz)%Z; color := "#228B22" |})
         canopyCells
  ++ [ {| position := (0, 6, 0)%Z; color := grass |} ].
Proof. vm_compute. reflexivity. Qed.

(** When the [y] loop runs for a column of height 6 that gets a tree, the
    tree does not come before the column's fill voxels: the bedrock voxel of
    the column is pushed first, the trunk after it.  (A height of 6 is given
    to the loop here; the grid itself never reaches it.) *)
Lemma tree_not_before_fills :
  treePlaced zeros 6 6 0 = true /\
  ~ allBefore (treeAt zeros 25 25 6 0)
              (map (fill 25 25 6) (range 0 (6 + 1)))
              (emitted (column zeros 25 25 6) 0).
Proof.
  split; [reflexivity|]. intros Hb.
  specialize (Hb 6%nat 0%nat
                {| position := (0, 7, 0)%Z; color := "#8B4513" |}
                {| position := (0, 0, 0)%Z; color := bedrock |}).
  rewrite column_of_height_6 in Hb.
  assert (6 < 0)%nat; [|lia].
  apply Hb.
  - reflexivity.
  - reflexivity.
  - vm_compute. now left.
  - vm_compute. now left.
Qed.

Lemma nth_error_app_cases {A} (l1 l2 : list A) (i : nat) (a : A) :
  nth_error (l1 ++ l2) i = Some a ->
  ((i < List.length l1)%nat /\ In a l1) \/
  ((List.length l1 <= i)%nat /\ In a l2).
Proof.
  intros Hn. destruct (Nat.lt_ge_cases i (List.length l1)) as [Hlt|Hge].
  - left. split; [assumption|].
    rewrite nth_error_app1 in Hn by assumption. eapply nth_error_In, Hn.
  - right. split; [assumption|].
    rewrite nth_error_app2 in Hn by assumption. eapply nth_error_In, Hn.
Qed.

(** In [l1 ++ l2], the voxels of [A] come before those of [B] when no voxel of
    [A] occurs in [l2] and no voxel of [B] occurs in [l1]. *)
Lemma allBefore_split (l1 l2 A B : list VoxelDatum) :
  (forall a, In a A -> ~ In a l2) ->
  (forall b, In b B -> ~ In b l1) ->
  allBefore A B (l1 ++ l2).
Proof.
  intros HA HB i j a b Hi Hj Ha Hb.
  apply nth_error_app_cases in Hi as [[Hi _]|[_ Hi]];
    [|now destruct (HA a Ha)].
  apply nth_error_app_cases in Hj as [[_ Hj]|[Hj _]];
    [now destruct (HB b Hb)|].
  lia.
Qed.

Lemma tree_above (rnd : nat -> Q) (x y z : Z) (m : nat) (v : VoxelDatum) :
  In v (emitted (tree rnd x y z) m) -> (y + 1 <= py v)%Z.
Proof.
  rewrite emitted_tree. intros Hv. apply in_app_or in Hv as [Hv|Hv].
  - destruct Hv as [<-|[<-|[]]]; unfold py; cbn [position fst snd]; lia.
  - apply in_canopy in Hv as ([[dx dz] dy] & Hd & ->).
    apply in_canopyCells in Hd. cbn [fst snd] in Hd.
    unfold py. cbn [leafVoxel position fst snd]. lia.
Qed.

Lemma lower_fill_below (x z vh : Z) (v : VoxelDatum) :
  In v (map (fill x z vh) (range 0 vh)) -> (py v < vh)%Z.
Proof.
  intros Hv. apply in_map_iff in Hv as (y & <- & Hy).
  apply in_range in Hy. unfold py. cbn [fill position fst snd]. lia.
Qed.

(** X21: the order in which the [y] loop pushes, for any column height:
    when a tree is placed, its voxels (trunk, then leaves) come after the
    column's fill voxels at the elevations below the top and before the
    column's top fill voxel. *)
Theorem tree_between_fills (rnd : nat -> Q) (x z vh : Z) (n : nat) :
  (0 <= vh)%Z ->
  treePlaced rnd vh vh n = true ->
  let lower := map (fill x z vh) (range 0 vh) in
  let placed := emitted (tree rnd x vh z) (S n) in
  let top := fill x z vh vh in
  let out := emitted (column rnd x z vh) n in
  out = lower ++ placed ++ [top] /\
  allBefore lower placed out /\
  allBefore placed [top] out.
Proof.
  intros Hvh Hp lower placed top out.
  assert (E : out = lower ++ placed ++ [top]).
  { unfold out. rewrite emitted_column by assumption.
    rewrite Hp, <- emitted_tree. reflexivity. }
  assert (Hlower : forall v, In v lower -> (py v < vh)%Z)
    by (intros v; apply lower_fill_below).
  assert (Hplaced : forall v, In v placed -> (vh + 1 <= py v)%Z)
    by (intros v; apply tree_above).
  assert (Htop : py top = vh) by reflexivity.
  split; [exact E|]. rewrite E. split.
  - apply allBefore_split.
    + intros v Hv Hin. specialize (Hlower v Hv).
      apply in_app_or in Hin as [Hin|[<-|[]]];
        [specialize (Hplaced v Hin)|]; lia.
    + intros v Hv Hin. specialize (Hplaced v Hv). specialize (Hlower v Hin).
      lia.
  - rewrite app_assoc. apply allBefore_split.
    + intros v Hv [<-|[]]. specialize (Hplaced top Hv). lia.
    + intros v [<-|[]] Hin. apply in_app_or in Hin as [Hin|Hin].
      * specialize (Hlower top Hin). lia.
      * specialize (Hplaced top Hin). lia.
Qed.

Lemma tree_between_fills_witness :
  let lower := map (fill 25 25 6) (range 0 6) in
  let placed := emitted (tree zeros 25 6 25) 1 in
  let top := fill 25 25 6 6 in
  let out := emitted (column zeros 25 25 6) 0 in
  out = lower ++ placed ++ [top] /\
  allBefore lower placed out /\
  allBefore placed [top] out.
Proof.
  apply (tree_between_fills zeros 25 25 6 0); [lia | reflexivity].
Defined.



(** *** Draws of a uniform source

    A uniform source of resolution [N] returns each of the [N] values
    [0/N, 1/N, ..., (N-1)/N] equally often; the probability that a test on
    the draw succeeds is the share of these values that pass it. *)

Lemma count_below (c N : nat) :
  List.length (filter (fun i => (i <? c)%nat) (seq 0 N)) = Nat.min c N.
Proof.
  induction N as [|N IH]; [now rewrite Nat.min_0_r|].
  rewrite seq_S, filter_app, length_app, IH. cbn [filter Nat.add].
  destruct (Nat.ltb_spec N c); cbn [List.length]; lia.
Qed.

Lemma passing_count (p q : positive) (N : positive) :
  passing (Zpos p # q) N =
  Nat.min (Z.to_nat ((Zpos p * Zpos N + Zpos q - 1) / Zpos q)) (Pos.to_nat N).
Proof.
  unfold passing, uniformValues.
  rewrite <- count_below.
  set (c := Z.to_nat ((Zpos p * Zpos N + Zpos q - 1) / Zpos q)).
  generalize (seq 0 (Pos.to_nat N)). intros l.
  induction l as [|i l IH]; [reflexivity|].
  cbn [map filter].
  assert (E : Qltb (Z.of_nat i # N) (Zpos p # q) = (i <? c)%nat).
  { unfold Qltb, Qle_bool. cbn [Qnum Qden].
    assert (Hc : Z.of_nat c = ((Zpos p * Zpos N + Zpos q - 1) / Zpos q)%Z).
    { unfold c. rewrite Z2Nat.id; [reflexivity|].
      apply Z.div_pos; lia. }
    assert (Hd : (Z.of_nat i * Zpos q < Zpos p * Zpos N <->
                  Z.of_nat i < Z.of_nat c)%Z).
    { rewrite Hc. split; intros Hlt.
      - assert (Z.of_nat i + 1 <=
                (Zpos p * Zpos N + Zpos q - 1) / Zpos q)%Z; [|lia].
        apply Z.div_le_lower_bound; [lia|nia].
      - assert (Hm := Z.mul_div_le (Zpos p * Zpos N + Zpos q - 1)
                        (Zpos q) ltac:(lia)).
        nia. }
    destruct (Nat.ltb_spec i c) as [Hic|Hic];
      destruct (Z.leb_spec (Zpos p * Zpos N) (Z.of_nat i * Zpos q));
      cbn [negb]; try reflexivity; exfalso; lia. }
  rewrite E. destruct (i <? c)%nat; cbn [List.length]; now rewrite IH.
Qed.

(** The share of the values of a uniform source below 0.02 is 0.02, up to
    the resolution of the source. *)
Lemma passing_002 (N : positive) :
  (Pos.to_nat N <= 50 * passing 0.02 N < Pos.to_nat N + 50)%nat.
Proof.
  change (0.02)%Q with (2 # 100)%Q. rewrite passing_count.
  assert (H : (Z.of_nat (Z.to_nat ((2 * Zpos N + 100 - 1) / 100))
               = (2 * Zpos N + 100 - 1) / 100)%Z).
  { apply Z2Nat.id. apply Z.div_pos; lia. }
  revert H. generalize (Z.to_nat ((2 * Zpos N + 100 - 1) / 100)).
  intros c Hc.
  pose proof (Z.div_mod (2 * Zpos N + 100 - 1) 100 ltac:(lia)).
  pose proof (Z.mod_pos_bound (2 * Zpos N + 100 - 1) 100 ltac:(lia)).
  lia.
Qed.

(** The share of the values of a uniform source below 0.7 is 0.7, up to the
    resolution of the source. *)
Lemma passing_07 (N : positive) :
  (7 * Pos.to_nat N <= 10 * passing 0.7 N < 7 * Pos.to_nat N + 10)%nat.
Proof.
  change (0.7)%Q with (7 # 10)%Q. rewrite passing_count.
  assert (H : (Z.of_nat (Z.to_nat ((7 * Zpos N + 10 - 1) / 10))
               = (7 * Zpos N + 10 - 1) / 10)%Z).
  { apply Z2Nat.id. apply Z.div_pos; lia. }
  revert H. generalize (Z.to_nat ((7 * Zpos N + 10 - 1) / 10)).
  intros c Hc.
  pose proof (Z.div_mod (7 * Zpos N + 10 - 1) 10 ltac:(lia)).
  pose proof (Z.mod_pos_bound (7 * Zpos N + 10 - 1) 10 ltac:(lia)).
  lia.
Qed.

Lemma Qltb_lt (a b : Q) : Qltb a b = true <-> (a < b)%Q.
Proof.
  unfold Qltb. rewrite negb_true_iff. split.
  - intros H. apply Qnot_le_lt. intros Hle.
    apply Qle_bool_iff in Hle. congruence.
  - intros H. destruct (Qle_bool b a) eqn:E; [|reflexivity].
    apply Qle_bool_iff in E. exfalso. exact (Qlt_not_le _ _ H E).
Qed.

Lemma canopyCells_NoDup : NoDup canopyCells.
Proof.
  unfold canopyCells. cbn [flat_map map app].
  repeat (constructor; [cbn [In]; intuition discriminate|]).
  constructor.
Qed.

Lemma in_canopy_iff rnd x y z m v :
  In v (canopy rnd x y z m) <->
  exists k dx dz dy,
    nth_error canopyCells k = Some (dx, dz, dy) /\
    (rnd (k + m)%nat < 0.7)%Q /\
    v = {| position := (x - centerX + dx, y + 3 + dy, z - centerZ + dz)%Z;
           color := "#228B22" |}.
Proof.
  unfold canopy. rewrite in_flat_map. split.
  - intros ([k [[dx dz] dy]] & Hkd & Hv). cbn [fst snd] in Hv.
    destruct (Qltb (rnd (k + m)%nat) 0.7) eqn:E; [|destruct Hv].
    destruct Hv as [<-|[]].
    exists k, dx, dz, dy. split; [|split].
    + clear E. revert Hkd. cbv [canopyCells flat_map map app seq combine].
      intros Hkd.
      repeat (destruct Hkd as [Hkd|Hkd];
              [injection Hkd as <- <- <- <-; reflexivity|]).
      destruct Hkd.
    + now apply Qltb_lt.
    + reflexivity.
  - intros (k & dx & dz & dy & Hk & Hr & ->).
    exists (k, (dx, dz, dy)). split.
    + assert (Hlt : (k < 18)%nat).
      { change 18%nat with (List.length canopyCells).
        apply nth_error_Some. rewrite Hk. discriminate. }
      do 18 (destruct k as [|k];
             [injection Hk as <- <- <-; cbv; tauto|]).
      lia.
    + cbn [fst snd]. apply Qltb_lt in Hr. rewrite Hr. now left.
Qed.

(** C5: a tree is pushed only at the top level of a column, when that level
    is above 5 (its fill voxel is then grass) and the draw made there is
    below 0.02, which a uniform source passes with probability 0.02; the
    tree is two trunk voxels at elevations [voxelHeight + 1] and
    [voxelHeight + 2] followed by the leaves kept among the 18 cells of the
    3 x 3 x 2 block at elevations [voxelHeight + 3] and [voxelHeight + 4],
    each cell kept when its own draw is below 0.7, which a uniform source
    passes with probability 0.7. *)
Theorem tree_placement (rnd : nat -> Q) (x z vh y : Z) (n : nat) :
  (* a level pushes the tree, if any, and then its fill voxel *)
  emitted (level rnd x z vh y) n =
    (if treePlaced rnd vh y n then emitted (tree rnd x y z) (S n) else [])
    ++ [fill x z vh y] /\
  (* when a tree is placed *)
  (treePlaced rnd vh y n = true <->
   y = vh /\ (5 < y)%Z /\ (rnd n < 0.02)%Q) /\
  (y = vh -> (5 < y)%Z -> color (fill x z vh y) = grass) /\
  (* what a tree is *)
  (forall m,
     emitted (tree rnd x y z) m =
       [ {| position := (x - centerX, y + 1, z - centerZ)%Z;
            color := "#8B4513" |};
         {| position := (x - centerX, y + 2, z - centerZ)%Z;
            color := "#8B4513" |} ]
       ++ canopy rnd x y z m) /\
  (forall m v,
     In v (canopy rnd x y z m) <->
     exists k dx dz dy,
       nth_error canopyCells k = Some (dx, dz, dy) /\
       (rnd (k + m)%nat < 0.7)%Q /\
       v = {| position := (x - centerX + dx, y + 3 + dy, z - centerZ + dz)%Z;
              color := "#228B22" |}) /\
  (forall dx dz dy,
     In (dx, dz, dy) canopyCells <->
     (-1 <= dx <= 1 /\ -1 <= dz <= 1 /\ 0 <= dy <= 1)%Z) /\
  List.length canopyCells = 18%nat /\ NoDup canopyCells /\
  (* the two tests under a uniform source of resolution N *)
  (forall N : positive,
     (Pos.to_nat N <= 50 * passing 0.02 N < Pos.to_nat N + 50)%nat /\
     (7 * Pos.to_nat N <= 10 * passing 0.7 N < 7 * Pos.to_nat N + 10)%nat).
Proof.
  split; [|split; [|split; [|split; [|split; [|split; [|split; [|split]]]]]]].
  - rewrite emitted_level. do 2 f_equal. now rewrite emitted_tree.
  - unfold treePlaced. rewrite !andb_true_iff, Z.eqb_eq, Z.ltb_lt, Qltb_lt.
    tauto.
  - intros -> H5. cbn [fill color]. unfold fillColor.
    rewrite Z.eqb_refl.
    replace (3 <? vh)%Z with true by (symmetry; apply Z.ltb_lt; lia).
    reflexivity.
  - intros m. apply emitted_tree.
  - intros m v. apply in_canopy_iff.
  - intros dx dz dy. apply (in_canopyCells (dx, dz, dy)).
  - reflexivity.
  - apply canopyCells_NoDup.
  - intros N. split; [apply passing_002 | apply passing_07].
Qed.

(** * Properties of the player controller *)

Module PlayerProperties.

Import PlayerController PlayerNotions.
Local Open Scope R_scope.

Lemma vector3_eq (a b : Vector3) :
  x a = x b -> y a = y b -> z a = z b -> a = b.
Proof. destruct a, b. cbn. now intros -> -> ->. Qed.

(** The position after a frame is the old position plus the frame's
    velocity, with the vertical component raised to 2 if it is below. *)
Lemma useFrame_position (keysPressed : Keys) (delta : R) (w : Camera * Refs) :
  let p := add (position (fst w)) (velocityOf keysPressed delta w) in
  position (cameraAfter keysPressed delta w) =
  if Rlt_dec (y p) 2 then mkVector3 (x p) 2 (z p) else p.
Proof.
  destruct w as [camera refs]. unfold cameraAfter, velocityOf, useFrame.
  cbn [fst snd].
  destruct (keysPressed "keyw"%string), (keysPressed "keys"%string),
    (keysPressed "keya"%string), (keysPressed "keyd"%string),
    (keysPressed "space"%string); reflexivity.
Qed.

Lemma useFrame_direction (keysPressed : Keys) (delta : R) (w : Camera * Refs) :
  worldDirection (cameraAfter keysPressed delta w) = worldDirection (fst w) /\
  up (cameraAfter keysPressed delta w) = up (fst w).
Proof.
  destruct w as [camera refs]. unfold cameraAfter, useFrame. cbn [fst snd].
  destruct (keysPressed "keyw"%string), (keysPressed "keys"%string),
    (keysPressed "keya"%string), (keysPressed "keyd"%string),
    (keysPressed "space"%string); split; reflexivity.
Qed.

(** The velocity of a frame in which no two opposite keys are held. *)
Lemma velocity_sum (keysPressed : Keys) (delta : R) (w : Camera * Refs) :
  keysPressed "keyw"%string && keysPressed "keys"%string = false ->
  keysPressed "keya"%string && keysPressed "keyd"%string = false ->
  velocityOf keysPressed delta w =
  sumOfKeys keysPressed delta (worldDirection (fst w))
    (normalize (crossVectors (worldDirection (fst w)) (up (fst w)))).
Proof.
  destruct w as [camera refs]. unfold velocityOf, useFrame, sumOfKeys.
  cbn [fst snd]. intros Hws Had.
  set (r := normalize _).
  destruct (keysPressed "keyw"%string), (keysPressed "keys"%string);
    try discriminate Hws;
    destruct (keysPressed "keya"%string), (keysPressed "keyd"%string);
    try discriminate Had;
    destruct (keysPressed "space"%string);
    cbn [velocity snd]; apply vector3_eq; cbn; ring.
Qed.

(** With only the forward key held, a frame moves the camera by
    [speed * delta] along the look direction, unless the floor stops it. *)
Lemma forward_velocity (keysPressed : Keys) (delta : R) (w : Camera * Refs) :
  onlyForward keysPressed ->
  velocityOf keysPressed delta w =
  multiplyScalar (worldDirection (fst w)) (speed * delta).
Proof.
  intros (Hw & Hs & Ha & Hd & Hsp).
  destruct w as [camera refs]. unfold velocityOf, useFrame. cbn [fst snd].
  rewrite Hw, Hs, Ha, Hd, Hsp. cbn [velocity snd].
  apply vector3_eq; cbn; ring.
Qed.

Lemma frames_direction (n : nat) (keysPressed : Keys) (delta : R)
      (w : Camera * Refs) :
  worldDirection (fst (frames n keysPressed delta w)) = worldDirection (fst w).
Proof.
  revert w. induction n as [|n IH]; intros w; [reflexivity|].
  cbn [frames]. rewrite IH.
  apply (proj1 (useFrame_direction keysPressed delta w)).
Qed.

Lemma forward_frames (n : nat) (keysPressed : Keys) (delta : R)
      (w : Camera * Refs) :
  onlyForward keysPressed ->
  (forall k, (1 <= k <= n)%nat ->
     2 <= y (position (fst w))
          + INR k * (speed * delta) * y (worldDirection (fst w))) ->
  position (fst (frames n keysPressed delta w)) =
  add (position (fst w))
      (multiplyScalar (worldDirection (fst w)) (INR n * (speed * delta))).
Proof.
  intros Hk. revert w. induction n as [|n IH]; intros w Hfloor.
  - cbn [frames INR]. apply vector3_eq; cbn; ring.
  - cbn [frames].
    assert (Hstep : position (cameraAfter keysPressed delta w) =
                    add (position (fst w))
                        (multiplyScalar (worldDirection (fst w))
                                        (speed * delta))).
    { rewrite useFrame_position, forward_velocity by assumption. cbv zeta.
      destruct (Rlt_dec _ _) as [Hlt|_]; [|reflexivity].
      exfalso. specialize (Hfloor 1%nat ltac:(lia)).
      cbn in Hlt, Hfloor. lra. }
    pose proof (useFrame_direction keysPressed delta w) as [Hdir _].
    unfold cameraAfter in Hstep, Hdir.
    rewrite IH.
    + rewrite Hstep, Hdir, S_INR. apply vector3_eq; cbn; ring.
    + intros k Hkn. specialize (Hfloor (S k) ltac:(lia)).
      rewrite Hstep, Hdir. rewrite S_INR in Hfloor. cbn. lra.
Qed.

(** ** The specification's statements about the player controller *)

(** C2, as stated, fails twice.  With forward and back held together the
    frame's velocity is not the sum of the two opposite terms (the back term
    is scaled from the already scaled forward vector); and with only forward
    held while looking downwards from the floor height, the camera does not
    advance by [speed * delta] along the look direction, because the floor
    stops its descent. *)
Lemma movement_not_as_stated :
  (let keys := holding ["keyw"; "keys"]%string in
   let w := cameraAt (mkVector3 0 15 20) (mkVector3 0 0 (-1)) in
   velocityOf keys (1 / 100) w <>
   sumOfKeys keys (1 / 100) (worldDirection (fst w))
     (normalize (crossVectors (worldDirection (fst w)) (up (fst w))))) /\
  (let keys := holding ["keyw"]%string in
   let f := mkVector3 0 (- (3 / 5)) (- (4 / 5)) in
   let w := cameraAt (mkVector3 0 2 20) f in
   onlyForward keys /\ dot f f = 1 /\
   dot (sub (position (fst (frames 1 keys (1 / 10) w))) (position (fst w))) f
   <> speed * (1 / 10) * INR 1).
Proof.
  split.
  - intros keys w E. apply (f_equal z) in E.
    unfold velocityOf, useFrame, sumOfKeys, speed in E. cbn in E. lra.
  - intros keys f w. split; [repeat split|split].
    + unfold dot, f. cbn. lra.
    + unfold frames. fold (cameraAfter keys (1 / 10) w).
      rewrite useFrame_position, forward_velocity by (repeat split).
      cbv zeta. unfold speed. cbn.
      destruct (Rlt_dec _ _) as [_|Hge].
      * unfold dot, sub. cbn. intros E. lra.
      * exfalso. apply Hge. lra.
Qed.

(** C2, amended: in a frame in which forward and back are not held together
    and left and right are not held together, the velocity added to the
    camera position is the sum over the pressed keys of [speed * delta] times
    the forward vector, minus it for back, minus [speed * delta] times the
    right vector for left, plus it for right, and [speed * delta] on the
    vertical component for ascend; and with only forward held for [n] frames
    of the same delta and look direction, none of which ends below the floor
    height 2, the camera moves by [n * speed * delta] along the unit look
    direction. *)
Theorem movement (keysPressed : Keys) (delta : R) (w : Camera * Refs)
        (n : nat) :
  let f := worldDirection (fst w) in
  let r := normalize (crossVectors f (up (fst w))) in
  (keysPressed "keyw"%string && keysPressed "keys"%string = false ->
   keysPressed "keya"%string && keysPressed "keyd"%string = false ->
   velocityOf keysPressed delta w = sumOfKeys keysPressed delta f r /\
   position (cameraAfter keysPressed delta w) =
     let p := add (position (fst w)) (sumOfKeys keysPressed delta f r) in
     if Rlt_dec (y p) 2 then mkVector3 (x p) 2 (z p) else p) /\
  (onlyForward keysPressed ->
   dot f f = 1 ->
   (forall k, (1 <= k <= n)%nat ->
      2 <= y (position (fst w)) + INR k * (speed * delta) * y f) ->
   position (fst (frames n keysPressed delta w)) =
     add (position (fst w)) (multiplyScalar f (INR n * (speed * delta))) /\
   dot (sub (position (fst (frames n keysPressed delta w)))
            (position (fst w))) f
   = speed * delta * INR n).
Proof.
  intros f r. split.
  - intros Hws Had.
    pose proof (velocity_sum keysPressed delta w Hws Had) as Hv.
    fold f in Hv. fold r in Hv. split; [exact Hv|].
    rewrite useFrame_position, Hv. reflexivity.
  - intros Hk Hunit Hfloor.
    pose proof (forward_frames n keysPressed delta w Hk Hfloor) as Hp.
    fold f in Hp. split; [exact Hp|].
    rewrite Hp. unfold dot in *. cbn.
    transitivity (speed * delta * INR n * (x f * x f + y f * y f + z f * z f));
      [ring|].
    rewrite Hunit. ring.
Qed.

Lemma movement_witness :
  let keys := holding ["keyw"]%string in
  let f := mkVector3 0 0 (-1) in
  let w := cameraAt (mkVector3 0 15 20) f in
  velocityOf keys (1 / 60) w =
    sumOfKeys keys (1 / 60) f (normalize (crossVectors f (up (fst w)))) /\
  position (fst (frames 3 keys (1 / 60) w)) =
    add (position (fst w)) (multiplyScalar f (INR 3 * (speed * (1 / 60)))) /\
  dot (sub (position (fst (frames 3 keys (1 / 60) w))) (position (fst w))) f
  = speed * (1 / 60) * INR 3.
Proof.
  intros keys f w.
  destruct (movement keys (1 / 60) w 3) as [Hv Hn].
  split.
  - apply Hv; reflexivity.
  - apply Hn.
    + repeat split.
    + unfold dot. cbn. lra.
    + intros k _. cbn. lra.
Defined.

(** C7: after every frame, whatever keys are held and wherever the camera
    was, the camera's vertical position is at least 2; when the position plus
    the frame's velocity is below 2, the vertical position is exactly 2. *)
Theorem floor_clamp (keysPressed : Keys) (delta : R) (w : Camera * Refs) :
  2 <= y (position (cameraAfter keysPressed delta w)) /\
  (y (position (fst w)) + y (velocityOf keysPressed delta w) < 2 ->
   y (position (cameraAfter keysPressed delta w)) = 2) /\
  (forall n, 2 <= y (position (fst (frames (S n) keysPressed delta w)))).
Proof.
  assert (Hone : forall w',
             2 <= y (position (cameraAfter keysPressed delta w')) /\
             (y (position (fst w')) + y (velocityOf keysPressed delta w') < 2 ->
              y (position (cameraAfter keysPressed delta w')) = 2)).
  { intros w'. rewrite useFrame_position. cbv zeta.
    destruct (Rlt_dec _ _) as [Hlt|Hge]; cbn in *; split; intros; lra. }
  split; [apply Hone|]. split; [apply Hone|].
  intros n. revert w. induction n as [|n IH]; intros w.
  - cbn [frames]. apply Hone.
  - change (frames (S (S n)) keysPressed delta w)
      with (frames (S n) keysPressed delta (useFrame keysPressed delta w)).
    apply IH.
Qed.

Lemma floor_clamp_witness :
  let keys := holding ["keyw"]%string in
  let w := cameraAt (mkVector3 0 2 20) (mkVector3 0 (- (3 / 5)) (- (4 / 5))) in
  y (position (cameraAfter keys (1 / 10) w)) = 2.
Proof.
  intros keys w.
  apply (proj1 (proj2 (floor_clamp keys (1 / 10) w))).
  rewrite forward_velocity by (repeat split). unfold speed. cbn. lra.
Defined.

(** C10: in a frame in which no movement key is held, the camera's x and z
    coordinates are unchanged; its y coordinate is unchanged when it is at
    least 2 and becomes exactly 2 when it is below 2. *)
Theorem idle_frame (keysPressed : Keys) (delta : R) (w : Camera * Refs) :
  idle keysPressed ->
  let p := position (fst w) in
  let p' := position (cameraAfter keysPressed delta w) in
  x p' = x p /\ z p' = z p /\
  (2 <= y p -> y p' = y p) /\
  (y p < 2 -> y p' = 2).
Proof.
  intros Hidle p p'.
  assert (Hv : velocityOf keysPressed delta w = zero).
  { destruct w as [camera refs]. unfold velocityOf, useFrame. cbn [fst snd].
    rewrite !Hidle by (cbn; tauto). reflexivity. }
  subst p'. rewrite useFrame_position, Hv. cbv zeta. fold p.
  destruct (Rlt_dec _ _) as [Hlt|Hge]; cbn in *;
    repeat split; intros; lra.
Qed.

Lemma idle_frame_witness :
  let w := cameraAt (mkVector3 0 15 20) (mkVector3 0 0 (-1)) in
  let p := position (fst w) in
  let p' := position (cameraAfter (holding []) (1 / 60) w) in
  x p' = x p /\ z p' = z p /\
  (2 <= y p -> y p' = y p) /\
  (y p < 2 -> y p' = 2).
Proof.
  apply (idle_frame (holding []) (1 / 60)).
  intros k _. reflexivity.
Defined.

End PlayerProperties.

(** * Further properties of the terrain generator *)

(** ** The height sample *)

(** X1: the height sample stays between -14 and 14, the sum of the three
    amplitudes, for every pair of arguments. *)
Theorem noise_range (x z : R) : (-14 <= noise x z <= 14)%R.
Proof.
  split; [|apply noise_le_14].
  unfold noise.
  assert (P : forall a b, (-1 <= sin a * cos b)%R).
  { intros a b. pose proof (SIN_bound a) as [? ?].
    pose proof (COS_bound b) as [? ?].
    assert (0 <= (1 + sin a) * (1 + cos b))%R by (apply Rmult_le_pos; lra).
    assert (0 <= (1 - sin a) * (1 - cos b))%R by (apply Rmult_le_pos; lra).
    lra. }
  pose proof (P (x * 0.1) (z * 0.1))%R.
  pose proof (P (x * 0.05) (z * 0.05))%R.
  pose proof (P (x * 0.02) (z * 0.02))%R.
  lra.
Qed.

(** ** Draws made by the loops *)

Lemma after_forEach_app {A} (l1 l2 : list A) (body : A -> M unit) n :
  (forall a, framed (body a)) ->
  after (forEach (l1 ++ l2) body) n =
  after (forEach l2 body) (after (forEach l1 body) n).
Proof.
  intros Hb. revert n. induction l1 as [|a l1 IH]; intros n; [reflexivity|].
  rewrite <- app_comm_cons, !after_forEach_cons by assumption. apply IH.
Qed.

Section Draws.

Variable rnd : nat -> Q.

(** A tree makes exactly 18 draws, one per candidate leaf cell. *)
Lemma after_tree x y z n : after (tree rnd x y z) n = (18 + n)%nat.
Proof.
  unfold tree.
  rewrite after_bind by (intros _; auto 8 with framed).
  rewrite after_bind by (intros _; auto 8 with framed).
  change (range (-1) 2) with [-1; 0; 1]%Z.
  change (range 0 2) with [0; 1]%Z.
  repeat (rewrite ?after_forEach_cons, ?after_forEach_nil, ?after_leaf
            by auto 8 with framed).
  reflexivity.
Qed.

Lemma after_level_top x z vh n :
  after (level rnd x z vh vh) n =
  if (5 <? vh)%Z then
    if Qltb (rnd n) 0.02 then (19 + n)%nat else S n
  else n.
Proof.
  unfold level.
  rewrite after_bind by (intros; auto 8 with framed).
  rewrite result_treeTest, after_treeTest. unfold treePlaced.
  rewrite Z.eqb_refl. cbn [andb].
  rewrite after_bind by (intros; auto with framed).
  rewrite after_push.
  destruct (5 <? vh)%Z; cbn [andb]; [|reflexivity].
  destruct (Qltb (rnd n) 0.02); [apply after_tree | reflexivity].
Qed.

Lemma after_column x z vh n :
  (0 <= vh)%Z ->
  after (column rnd x z vh) n =
  if (5 <? vh)%Z then
    if Qltb (rnd n) 0.02 then (19 + n)%nat else S n
  else n.
Proof.
  intros Hvh. unfold column.
  assert (Hf : forall a, framed (level rnd x z vh a)) by auto with framed.
  destruct (lower_levels rnd x z vh vh n) as [_ Ha]; [lia|].
  rewrite range_snoc, after_forEach_app, Ha by (assumption || lia).
  rewrite after_forEach_cons, after_forEach_nil by assumption.
  apply after_level_top.
Qed.

(** On the grid a column pushes its fill voxels and makes no draw. *)
Lemma cell_on_grid x z n :
  In x (range 0 size) -> In z (range 0 size) ->
  emitted (cell rnd x z) n = columnFills x z /\ after (cell rnd x z) n = n.
Proof.
  intros Hx Hz. unfold columnFills, included.
  destruct (Rlt_dec (distFromCenter x z) maxDist) as [Hin|Hout].
  - pose proof (voxelHeight_pos x z) as Hpos.
    pose proof (voxelHeight_le_5 x z Hx Hz Hin) as H5.
    replace (dist2 x z <? 400)%Z with true
      by (symmetry; apply Z.ltb_lt; now apply included_iff).
    split.
    + rewrite emitted_cell_in, emitted_column by (assumption || lia).
      unfold treePlaced.
      replace (5 <? voxelHeight x z)%Z with false
        by (symmetry; apply Z.ltb_ge; lia).
      rewrite andb_false_r. cbn [andb app].
      rewrite range_snoc, map_app by lia. reflexivity.
    + unfold cell. destruct (Rlt_dec _ _); [|contradiction].
      rewrite after_column by lia.
      replace (5 <? voxelHeight x z)%Z with false
        by (symmetry; apply Z.ltb_ge; lia).
      reflexivity.
  - replace (dist2 x z <? 400)%Z with false.
    + split; [now apply emitted_cell_out|].
      unfold cell. now destruct (Rlt_dec _ _).
    + symmetry. apply Z.ltb_ge.
      destruct (Z.lt_ge_cases (dist2 x z) 400) as [Hlt|Hge]; [|assumption].
      exfalso. apply Hout. now apply included_iff.
Qed.

(** A loop whose iterations make no draw pushes what its iterations push,
    one after the other. *)
Lemma forEach_without_draws {A} (l : list A) (body : A -> M unit)
      (f : A -> list VoxelDatum) :
  (forall a, framed (body a)) ->
  (forall a n, In a l -> emitted (body a) n = f a /\ after (body a) n = n) ->
  forall n, emitted (forEach l body) n = flat_map f l /\
            after (forEach l body) n = n.
Proof.
  intros Hb. induction l as [|a l IH]; intros Hl n.
  - split; reflexivity.
  - destruct (Hl a n (or_introl eq_refl)) as [He Ha].
    destruct (IH (fun a' n' Hin => Hl a' n' (or_intror Hin)) n) as [IHe IHa].
    rewrite emitted_forEach_cons, after_forEach_cons by assumption.
    rewrite He, Ha, IHe, IHa. split; reflexivity.
Qed.

Lemma generate_on_grid :
  emitted (generate rnd) 0 = gridFills /\ after (generate rnd) 0 = 0%nat.
Proof.
  unfold generate, gridFills.
  apply forEach_without_draws; [intros; auto with framed|].
  intros x n Hx.
  apply forEach_without_draws; [intros; auto with framed|].
  intros z n' Hz. now apply cell_on_grid.
Qed.

End Draws.

(** X2: the generator never calls the random source, and the array it
    returns is the same for every random source: the fill voxels of the
    included columns, column after column. *)
Theorem voxels_without_draws (rnd rnd' : nat -> Q) :
  after (generate rnd) 0 = 0%nat /\
  voxels rnd = gridFills /\
  voxels rnd = voxels rnd'.
Proof.
  destruct (generate_on_grid rnd) as [He Ha].
  destruct (generate_on_grid rnd') as [He' _].
  unfold voxels. rewrite He, He'. repeat split. exact Ha.
Qed.

(** ** The shape of the generated array *)

Lemma in_columnFills (x z : Z) (v : VoxelDatum) :
  In v (columnFills x z) <->
  (distFromCenter x z < maxDist)%R /\
  exists y, (0 <= y <= voxelHeight x z)%Z /\ v = fill x z (voxelHeight x z) y.
Proof.
  unfold columnFills, included. split.
  - destruct (Z.ltb_spec (dist2 x z) 400) as [Hlt|Hge]; [|intros []].
    intros Hv. split; [now apply included_iff|].
    apply in_map_iff in Hv as (y & <- & Hy). apply in_range in Hy.
    exists y. split; [lia | reflexivity].
  - intros (Hin & y & Hy & ->).
    replace (dist2 x z <? 400)%Z with true
      by (symmetry; apply Z.ltb_lt; now apply included_iff).
    apply in_map. apply in_range. lia.
Qed.

Lemma in_gridFills (v : VoxelDatum) :
  In v gridFills <->
  exists x z, In x (range 0 size) /\ In z (range 0 size) /\
              In v (columnFills x z).
Proof.
  unfold gridFills. rewrite in_flat_map. split.
  - intros (x & Hx & Hv). apply in_flat_map in Hv as (z & Hz & Hv).
    now exists x, z.
  - intros (x & z & Hx & Hz & Hv). exists x. split; [assumption|].
    apply in_flat_map. now exists z.
Qed.

Lemma StronglySorted_app {A} (R : A -> A -> Prop) (l1 l2 : list A) :
  StronglySorted R l1 -> StronglySorted R l2 ->
  (forall a b, In a l1 -> In b l2 -> R a b) ->
  StronglySorted R (l1 ++ l2).
Proof.
  intros H1 H2 H12. induction l1 as [|a l1 IH]; [exact H2|].
  apply StronglySorted_inv in H1 as [H1 Ha]. cbn [app]. constructor.
  - apply IH; [assumption|]. intros a' b Ha' Hb. apply H12; [now right|assumption].
  - apply Forall_app. split; [assumption|].
    apply Forall_forall. intros b Hb. apply H12; [now left | assumption].
Qed.

Lemma StronglySorted_flat_map {A B} (RA : A -> A -> Prop) (RB : B -> B -> Prop)
      (f : A -> list B) (l : list A) :
  StronglySorted RA l ->
  (forall a, In a l -> StronglySorted RB (f a)) ->
  (forall a a' b b', In a l -> In a' l -> RA a a' ->
                     In b (f a) -> In b' (f a') -> RB b b') ->
  StronglySorted RB (flat_map f l).
Proof.
  intros Hl Hf Hcross. induction l as [|a l IH]; [constructor|].
  apply StronglySorted_inv in Hl as [Hl Ha]. cbn [flat_map].
  apply StronglySorted_app.
  - apply Hf. now left.
  - apply IH; [assumption | intros; apply Hf; now right |].
    intros a1 a2 b1 b2 H1 H2. apply Hcross; now right.
  - intros b b' Hb Hb'. apply in_flat_map in Hb' as (a' & Ha' & Hb').
    apply (Hcross a a'); try assumption; [now left | now right |].
    rewrite Forall_forall in Ha. now apply Ha.
Qed.

Lemma range_sorted (lo hi : Z) : StronglySorted Z.lt (range lo hi).
Proof.
  unfold range. generalize (Z.to_nat (hi - lo)). intros k.
  assert (G : forall s, StronglySorted Z.lt
                (map (fun i => (lo + Z.of_nat i)%Z) (seq s k))).
  { induction k as [|k IH]; intros s; [constructor|].
    cbn [seq map]. constructor; [apply IH|].
    apply Forall_forall. intros y Hy.
    apply in_map_iff in Hy as (i & <- & Hi). apply in_seq in Hi. lia. }
  apply G.
Qed.

Lemma StronglySorted_NoDup {A} (R : A -> A -> Prop) (l : list A) :
  (forall a, ~ R a a) -> StronglySorted R l -> NoDup l.
Proof.
  intros Hirr Hl. induction Hl as [|a l Hl IH Ha]; constructor; [|assumption].
  intros Hin. rewrite Forall_forall in Ha. exact (Hirr a (Ha a Hin)).
Qed.

Lemma gridFills_sorted : StronglySorted emittedBefore gridFills.
Proof.
  unfold gridFills.
  apply (StronglySorted_flat_map Z.lt); [apply range_sorted | |].
  - intros x _.
    apply (StronglySorted_flat_map Z.lt); [apply range_sorted | |].
    + intros z _. unfold columnFills. destruct (included x z); [|constructor].
      generalize (range_sorted 0 (voxelHeight x z + 1)).
      generalize (range 0 (voxelHeight x z + 1)). intros l Hl.
      induction Hl as [|y l Hl IH Hy]; [constructor|].
      cbn [map]. constructor; [assumption|].
      apply Forall_forall. intros v Hv.
      apply in_map_iff in Hv as (y' & <- & Hy').
      rewrite Forall_forall in Hy. specialize (Hy y' Hy').
      unfold emittedBefore, px, py, pz. cbn [fill position fst snd]. lia.
    + intros z z' v v' _ _ Hzz Hv Hv'.
      apply in_columnFills in Hv as (_ & y & _ & ->).
      apply in_columnFills in Hv' as (_ & y' & _ & ->).
      unfold emittedBefore, px, py, pz. cbn [fill position fst snd]. lia.
  - intros x x' v v' _ _ Hxx Hv Hv'.
    apply in_flat_map in Hv as (z & _ & Hv).
    apply in_flat_map in Hv' as (z' & _ & Hv').
    apply in_columnFills in Hv as (_ & y & _ & ->).
    apply in_columnFills in Hv' as (_ & y' & _ & ->).
    unfold emittedBefore, px, py, pz. cbn [fill position fst snd]. lia.
Qed.

(** X3: the array is in emission order: strictly increasing in [x], then
    [z], then elevation; every voxel comes before all the voxels east of it,
    and within a column the elevations go up. *)
Theorem voxels_in_emission_order (rnd : nat -> Q) :
  StronglySorted emittedBefore (voxels rnd).
Proof.
  destruct (generate_on_grid rnd) as [He _].
  unfold voxels. rewrite He. apply gridFills_sorted.
Qed.

(** X4: no two voxels of the array share a position: nothing is drawn
    twice in the same place. *)
Theorem voxels_positions_distinct (rnd : nat -> Q) :
  NoDup (map position (voxels rnd)).
Proof.
  destruct (generate_on_grid rnd) as [He _].
  unfold voxels. rewrite He.
  assert (S : StronglySorted
                (fun p q : Z * Z * Z =>
                   emittedBefore {| position := p; color := EmptyString |}
                                 {| position := q; color := EmptyString |})
                (map position gridFills)).
  { generalize gridFills_sorted. generalize gridFills. intros l Hl.
    induction Hl as [|v l Hl IH Hv]; [constructor|].
    cbn [map]. constructor; [assumption|].
    rewrite Forall_forall in *. intros q Hq.
    apply in_map_iff in Hq as (w & <- & Hw). exact (Hv w Hw). }
  eapply StronglySorted_NoDup; [|exact S].
  intros p. unfold emittedBefore. lia.
Qed.

(** A voxel of the array is a fill voxel of an included column of the
    grid, and every such fill voxel is in the array. *)
Lemma in_voxels_iff (rnd : nat -> Q) (v : VoxelDatum) :
  In v (voxels rnd) <->
  exists x z y,
    In x (range 0 size) /\ In z (range 0 size) /\
    (distFromCenter x z < maxDist)%R /\
    (0 <= y <= voxelHeight x z)%Z /\
    v = fill x z (voxelHeight x z) y.
Proof.
  split.
  - apply voxel_is_fill.
  - intros (x & z & y & Hx & Hz & Hin & Hy & ->). now apply fill_in_voxels.
Qed.

(** X5: every included column of the grid has a height between 1 and 5,
    that is between 2 and 6 voxels, and it pushes exactly that many. *)
Theorem column_height_range (rnd : nat -> Q) (x z : Z) (n : nat) :
  In x (range 0 size) -> In z (range 0 size) ->
  (distFromCenter x z < maxDist)%R ->
  (1 <= voxelHeight x z <= 5)%Z /\
  Z.of_nat (List.length (emitted (cell rnd x z) n)) = (voxelHeight x z + 1)%Z.
Proof.
  intros Hx Hz Hin.
  pose proof (voxelHeight_pos x z) as Hpos.
  pose proof (voxelHeight_le_5 x z Hx Hz Hin) as H5.
  split; [lia|].
  destruct (cell_on_grid rnd x z n Hx Hz) as [He _]. rewrite He.
  unfold columnFills, included.
  replace (dist2 x z <? 400)%Z with true
    by (symmetry; apply Z.ltb_lt; now apply included_iff).
  cbv iota. unfold range. rewrite !length_map, length_seq. lia.
Qed.

Lemma column_height_range_witness :
  (1 <= voxelHeight 25 25 <= 5)%Z /\
  Z.of_nat (List.length (emitted (cell zeros 25 25) 0))
  = (voxelHeight 25 25 + 1)%Z.
Proof.
  exact (column_height_range zeros 25 25 0 center_in_grid center_in_grid
           center_included).
Defined.

(** X6: columns are solid: below every voxel of the array there is a voxel
    at each lower elevation of the same column, down to a bedrock voxel at
    elevation 0. *)
Theorem columns_are_solid (rnd : nat -> Q) (v : VoxelDatum) (y : Z) :
  In v (voxels rnd) -> (0 <= y <= py v)%Z ->
  (exists c, In {| position := (px v, y, pz v); color := c |} (voxels rnd)) /\
  In {| position := (px v, 0, pz v)%Z; color := bedrock |} (voxels rnd).
Proof.
  intros Hv Hy.
  apply in_voxels_iff in Hv as (x & z & y0 & Hx & Hz & Hin & Hy0 & ->).
  unfold px, py, pz in *. cbn [fill position fst snd] in *. split.
  - exists (fillColor (voxelHeight x z) y).
    apply (fill_in_voxels rnd x z y Hx Hz Hin). lia.
  - pose proof (voxelHeight_pos x z) as Hpos.
    pose proof (fill_in_voxels rnd x z 0 Hx Hz Hin ltac:(lia)) as Hb.
    unfold fill in Hb. rewrite ruleColor_fillColor in Hb by assumption.
    exact Hb.
Qed.

Lemma columns_are_solid_witness :
  let v := {| position := (0, 0, 0)%Z; color := bedrock |} in
  (exists c, In {| position := (px v, 0, pz v)%Z; color := c |} (voxels zeros))
  /\ In {| position := (px v, 0, pz v)%Z; color := bedrock |} (voxels zeros).
Proof.
  apply (columns_are_solid zeros _ 0%Z (origin_bedrock_in_voxels zeros)).
  cbn. lia.
Defined.

Lemma fillColor_cases (vh y : Z) :
  (1 <= vh)%Z -> (0 <= y <= vh)%Z ->
  (y = 0%Z /\ fillColor vh y = bedrock) \/
  ((0 < y < vh)%Z /\ fillColor vh y = dirt) \/
  (y = vh /\ (vh <= 3)%Z /\ fillColor vh y = sand) \/
  (y = vh /\ (3 < vh)%Z /\ fillColor vh y = grass).
Proof.
  intros Hvh Hy. unfold fillColor.
  destruct (Z.eqb_spec y vh) as [->|Hne]; cbn [andb].
  - destruct (Z.ltb_spec 3 vh) as [H3|H3].
    + right. right. right. repeat split. assumption.
    + replace (vh <=? 3)%Z with true by (symmetry; apply Z.leb_le; lia).
      right. right. left. repeat split. assumption.
  - destruct (Z.eqb_spec y 0) as [->|H0].
    + left. split; reflexivity.
    + right. left. split; [lia | reflexivity].
Qed.

(** X7: in the array, a voxel is bedrock exactly at elevation 0; sand occurs
    only at elevations 1 to 3, grass only at 4 and 5, dirt only at 1 to 4;
    and a voxel has nothing above it in its column exactly when it is sand
    or grass. *)
Theorem colours_by_elevation (rnd : nat -> Q) (v : VoxelDatum) :
  In v (voxels rnd) ->
  (color v = bedrock <-> py v = 0%Z) /\
  (color v = sand -> (1 <= py v <= 3)%Z) /\
  (color v = grass -> (4 <= py v <= 5)%Z) /\
  (color v = dirt -> (1 <= py v <= 4)%Z) /\
  ((forall c, ~ In {| position := (px v, py v + 1, pz v)%Z; color := c |}
                   (voxels rnd)) <->
   color v = sand \/ color v = grass).
Proof.
  intros Hv.
  apply in_voxels_iff in Hv as (x & z & y & Hx & Hz & Hin & Hy & ->).
  pose proof (voxelHeight_pos x z) as Hpos.
  pose proof (voxelHeight_le_5 x z Hx Hz Hin) as H5.
  unfold px, py, pz. cbn [fill position color fst snd].
  assert (Htop : (forall c, ~ In {| position := (x - centerX, y + 1, z - centerZ)%Z;
                                    color := c |} (voxels rnd))
                 <-> y = voxelHeight x z).
  { split.
    - intros Hnone.
      destruct (Z.eq_dec y (voxelHeight x z)) as [E|Hne]; [exact E|].
      exfalso. apply (Hnone (fillColor (voxelHeight x z) (y + 1))).
      apply (fill_in_voxels rnd x z (y + 1) Hx Hz Hin). lia.
    - intros -> c Hc.
      apply in_voxels_iff in Hc as (x' & z' & y' & _ & _ & _ & Hy' & E).
      unfold fill in E. injection E as Ex Ey Ez _.
      assert (x' = x) by lia. assert (z' = z) by lia. subst x' z'. lia. }
  rewrite Htop.
  destruct (fillColor_cases (voxelHeight x z) y Hpos Hy)
    as [[-> Hc] | [[Hlt Hc] | [(-> & H3 & Hc) | (-> & H3 & Hc)]]];
    rewrite Hc; unfold bedrock, sand, grass, dirt;
    (split; [split; [intros E; try lia; try discriminate E
                    | intros E; try reflexivity; try lia]|]);
    (split; [intros E; try discriminate E; try lia|]);
    (split; [intros E; try discriminate E; try lia|]);
    (split; [intros E; try discriminate E; try lia|]);
    (split; [intros E; try lia; try (now left); try (now right)
            | intros [E|E]; try discriminate E; try reflexivity]).
Qed.

Lemma colours_by_elevation_witness :
  let v := {| position := (0, 0, 0)%Z; color := bedrock |} in
  (color v = bedrock <-> py v = 0%Z) /\
  (color v = sand -> (1 <= py v <= 3)%Z) /\
  (color v = grass -> (4 <= py v <= 5)%Z) /\
  (color v = dirt -> (1 <= py v <= 4)%Z) /\
  ((forall c, ~ In {| position := (px v, py v + 1, pz v)%Z; color := c |}
                   (voxels zeros)) <->
   color v = sand \/ color v = grass).
Proof.
  exact (colours_by_elevation zeros _ (origin_bedrock_in_voxels zeros)).
Defined.

(** X8: every voxel of the array lies in the box from -19 to 19 in [x] and
    [z] and from 0 to 5 in elevation. *)
Theorem voxels_bounding_box (rnd : nat -> Q) (v : VoxelDatum) :
  In v (voxels rnd) ->
  (-19 <= px v <= 19)%Z /\ (0 <= py v <= 5)%Z /\ (-19 <= pz v <= 19)%Z.
Proof.
  intros Hv. pose proof (voxel_radius rnd v Hv) as Hr.
  apply in_voxels_iff in Hv as (x & z & y & Hx & Hz & Hin & Hy & ->).
  pose proof (voxelHeight_le_5 x z Hx Hz Hin) as H5.
  unfold px, py, pz in *. cbn [fill position fst snd] in *.
  revert Hr. generalize (x - centerX)%Z (z - centerZ)%Z. intros a b Hr.
  repeat split; try lia; nia.
Qed.

Lemma voxels_bounding_box_witness :
  let v := {| position := (0, 0, 0)%Z; color := bedrock |} in
  (-19 <= px v <= 19)%Z /\ (0 <= py v <= 5)%Z /\ (-19 <= pz v <= 19)%Z.
Proof.
  exact (voxels_bounding_box zeros _ (origin_bedrock_in_voxels zeros)).
Defined.

(** ** The column loop for any height *)

Lemma length_kept {A B} (p : nat -> bool) (g : nat * A -> B)
      (l : list (nat * A)) :
  List.length (flat_map (fun kd => if p (fst kd) then [g kd] else []) l)
  = List.length (filter p (map fst l)).
Proof.
  induction l as [|kd l IH]; [reflexivity|].
  cbn [flat_map map filter]. rewrite length_app, IH.
  destruct (p (fst kd)); reflexivity.
Qed.

Lemma length_canopy (rnd : nat -> Q) (x y z : Z) (m : nat) :
  List.length (canopy rnd x y z m) = leavesKept rnd m.
Proof.
  unfold canopy, leavesKept.
  rewrite (length_kept (fun k => Qltb (rnd (k + m)%nat) 0.7)
             (fun kd => leafVoxel x y z (snd kd))).
  reflexivity.
Qed.

Lemma leavesKept_le (rnd : nat -> Q) (m : nat) : (leavesKept rnd m <= 18)%nat.
Proof.
  unfold leavesKept.
  eapply Nat.le_trans; [apply filter_length_le|]. now rewrite length_seq.
Qed.

(** X9: a tree always makes 18 draws and has between 2 and 20 voxels: the
    two trunk voxels and one leaf for each of its draws below 0.7; it is the
    bare trunk when no draw is below 0.7 and has all 18 leaves when all
    are. *)
Theorem tree_size (rnd : nat -> Q) (x y z : Z) (m : nat) :
  after (tree rnd x y z) m = (18 + m)%nat /\
  List.length (emitted (tree rnd x y z) m) = (2 + leavesKept rnd m)%nat /\
  (2 <= List.length (emitted (tree rnd x y z) m) <= 20)%nat /\
  ((forall k, (k < 18)%nat -> Qltb (rnd (k + m)%nat) 0.7 = false) ->
   emitted (tree rnd x y z) m = trunk x y z) /\
  ((forall k, (k < 18)%nat -> Qltb (rnd (k + m)%nat) 0.7 = true) ->
   emitted (tree rnd x y z) m =
   trunk x y z ++ map (leafVoxel x y z) canopyCells).
Proof.
  pose proof (leavesKept_le rnd m) as Hle.
  assert (Hlen : List.length (emitted (tree rnd x y z) m)
                 = (2 + leavesKept rnd m)%nat).
  { rewrite emitted_tree, length_app, length_canopy. reflexivity. }
  split; [apply after_tree|]. split; [exact Hlen|]. split; [lia|].
  split; intros Hall; rewrite emitted_tree; unfold canopy;
    cbn [canopyCells flat_map map app seq combine fst snd];
    rewrite ?Hall by lia; reflexivity.
Qed.

(** X10: what a column costs and yields, for any height: no draw and
    [voxelHeight + 1] voxels when the height is at most 5; otherwise one
    draw, and 18 more draws and the tree's voxels when that draw is below
    0.02. *)
Theorem column_draws_and_length (rnd : nat -> Q) (x z vh : Z) (n : nat) :
  (0 <= vh)%Z ->
  let placed := (5 <? vh)%Z && Qltb (rnd n) 0.02 in
  after (column rnd x z vh) n =
    (if (5 <? vh)%Z then if placed then 19 + n else 1 + n else n)%nat /\
  List.length (emitted (column rnd x z vh) n) =
    (Z.to_nat (vh + 1) + if placed then 2 + leavesKept rnd (S n) else 0)%nat.
Proof.
  intros Hvh placed. split.
  - rewrite after_column by assumption. unfold placed.
    destruct (5 <? vh)%Z; cbn [andb]; [|reflexivity].
    destruct (Qltb (rnd n) 0.02); reflexivity.
  - rewrite emitted_column by assumption.
    rewrite !length_app, length_map. cbn [List.length].
    unfold range at 1. rewrite length_map, length_seq.
    unfold treePlaced, placed. rewrite Z.eqb_refl. cbn [andb].
    destruct ((5 <? vh)%Z && Qltb (rnd n) 0.02).
    + rewrite length_app, length_canopy. cbn [trunk List.length]. lia.
    + cbn [List.length]. lia.
Qed.

Lemma column_draws_and_length_witness :
  after (column zeros 25 25 6) 0 = 19%nat /\
  List.length (emitted (column zeros 25 25 6) 0) = 27%nat.
Proof.
  exact (column_draws_and_length zeros 25 25 6 0 ltac:(lia)).
Defined.

(** * Further properties of the player controller *)

Module ControllerProperties.

Import PlayerController PlayerNotions PlayerProperties KeyboardHandlers.
Local Open Scope R_scope.

(** ** The keyboard handlers *)

Lemma includes_movementKeys (key : string) :
  includes movementKeys key = true <-> In key movementKeys.
Proof.
  unfold includes. rewrite existsb_exists. split.
  - intros (k & Hk & E). apply String.eqb_eq in E. now subst.
  - intros Hk. exists key. split; [assumption | apply String.eqb_refl].
Qed.

(** The flag one event leaves under a key. *)
Lemma dispatch_at (keysPressed : Keys) (e : KeyEvent) (k : string) :
  dispatch keysPressed e k =
  if String.eqb k (toLowerCase (codeOf e))
     && includes movementKeys (toLowerCase (codeOf e))
  then isDown e else keysPressed k.
Proof.
  destruct e as [c|c]; cbn [dispatch codeOf isDown];
    unfold handleKeyDown, handleKeyUp;
    destruct (includes movementKeys (toLowerCase c));
    cbn [fst assign]; unfold assign;
    destruct (String.eqb k (toLowerCase c)); reflexivity.
Qed.

Lemma lowerAscii_code (a : ascii) :
  lowerAscii a = ascii_of_nat (lowerCode (nat_of_ascii a)).
Proof.
  unfold lowerAscii, lowerCode. cbv zeta.
  destruct ((65 <=? nat_of_ascii a)%nat && (nat_of_ascii a <=? 90)%nat);
    [reflexivity | symmetry; apply ascii_nat_embedding].
Qed.

Lemma lowerCode_bounded (m : nat) : (m < 256 -> lowerCode m < 256)%nat.
Proof.
  unfold lowerCode. intros Hm.
  destruct (Nat.leb_spec 65 m), (Nat.leb_spec m 90); cbn [andb]; lia.
Qed.

(** Two characters are lower-cased to the same character exactly when they
    are the same letter up to case. *)
Lemma sameLetter_lowerAscii (a b : ascii) :
  sameLetter a b = true <-> lowerAscii a = lowerAscii b.
Proof.
  rewrite !lowerAscii_code.
  pose proof (nat_ascii_bounded a) as Ha.
  pose proof (nat_ascii_bounded b) as Hb.
  unfold sameLetter. cbv zeta.
  set (m := nat_of_ascii a) in *. set (n := nat_of_ascii b) in *.
  assert (Hinj : ascii_of_nat (lowerCode m) = ascii_of_nat (lowerCode n)
                 <-> lowerCode m = lowerCode n).
  { split; [|now intros ->]. intros E.
    apply (f_equal nat_of_ascii) in E.
    now rewrite !nat_ascii_embedding in E by now apply lowerCode_bounded. }
  rewrite Hinj. unfold lowerCode.
  rewrite !orb_true_iff, !andb_true_iff, !Nat.eqb_eq, !Nat.leb_le.
  destruct (Nat.leb_spec 65 m), (Nat.leb_spec m 90),
    (Nat.leb_spec 65 n), (Nat.leb_spec n 90); cbn [andb]; lia.
Qed.

Lemma sameLetters_toLowerCase (s t : string) :
  sameLetters s t = true <-> toLowerCase s = toLowerCase t.
Proof.
  revert t. induction s as [|a s IH]; intros [|b t]; cbn [sameLetters toLowerCase].
  - split; reflexivity.
  - split; discriminate.
  - split; discriminate.
  - rewrite andb_true_iff, sameLetter_lowerAscii, IH. split.
    + intros [-> ->]. reflexivity.
    + intros E. injection E as E1 E2. now split.
Qed.

(** X11: a code that spells, in any letter case, one of the five codes the
    browser reports for W, A, S, D and the space bar is recognised: a
    key-down sets, and a key-up clears, the flag the frame callback reads for
    that key, both leave the other flags alone and suppress the default
    action.  An ASCII code that spells none of the five (an arrow key, Q,
    Escape, the empty code) changes nothing and does not suppress the
    default. *)
Theorem browser_codes_recognised (keysPressed : Keys) (code : string) :
  (forall name key,
     In (name, key) browserCodes -> sameLetters code name = true ->
     fst (handleKeyDown code keysPressed) key = true /\
     fst (handleKeyUp code keysPressed) key = false /\
     (forall k, k <> key ->
        fst (handleKeyDown code keysPressed) k = keysPressed k /\
        fst (handleKeyUp code keysPressed) k = keysPressed k) /\
     snd (handleKeyDown code keysPressed) = true /\
     snd (handleKeyUp code keysPressed) = true) /\
  (isAscii code = true ->
   (forall name key,
      In (name, key) browserCodes -> sameLetters code name = false) ->
   handleKeyDown code keysPressed = (keysPressed, false) /\
   handleKeyUp code keysPressed = (keysPressed, false)) /\
  (forall other,
     In other ["ArrowUp"; "KeyQ"; "Escape"; "ShiftLeft"; ""]%string ->
     isAscii other = true /\
     forall name key,
       In (name, key) browserCodes -> sameLetters other name = false).
Proof.
  split; [|split].
  - intros name key Hin Hsame.
    apply sameLetters_toLowerCase in Hsame.
    assert (E : toLowerCase name = key /\
                includes movementKeys key = true).
    { unfold browserCodes in Hin. cbn [In] in Hin.
      repeat (destruct Hin as [Hin|Hin];
              [injection Hin as <- <-; split; reflexivity|]).
      destruct Hin. }
    destruct E as [E Hinc]. rewrite E in Hsame.
    unfold handleKeyDown, handleKeyUp. rewrite Hsame, Hinc.
    cbn [fst snd]. unfold assign. rewrite String.eqb_refl.
    split; [reflexivity|]. split; [reflexivity|].
    split; [|split; reflexivity].
    intros k Hne. apply String.eqb_neq in Hne. rewrite Hne.
    split; reflexivity.
  - intros _ Hnone.
    unfold handleKeyDown, handleKeyUp.
    destruct (includes movementKeys (toLowerCase code)) eqn:E;
      [|split; reflexivity].
    exfalso. apply includes_movementKeys in E.
    assert (Hex : exists name key,
               In (name, key) browserCodes /\
               toLowerCase code = toLowerCase name).
    { unfold movementKeys in E. cbn [In] in E.
      destruct E as [E|[E|[E|[E|[E|[]]]]]]; rewrite <- E.
      - exists "KeyW"%string, "keyw"%string. split; [cbn; tauto|reflexivity].
      - exists "KeyA"%string, "keya"%string. split; [cbn; tauto|reflexivity].
      - exists "KeyS"%string, "keys"%string. split; [cbn; tauto|reflexivity].
      - exists "KeyD"%string, "keyd"%string. split; [cbn; tauto|reflexivity].
      - exists "Space"%string, "space"%string.
        split; [cbn; tauto|reflexivity]. }
    destruct Hex as (name & key & Hin & Heq).
    apply sameLetters_toLowerCase in Heq.
    rewrite (Hnone name key Hin) in Heq. discriminate.
  - intros other Hin. cbn [In] in Hin.
    repeat (destruct Hin as [<-|Hin];
            [split; [reflexivity|];
             intros name key Hk; unfold browserCodes in Hk; cbn [In] in Hk;
             repeat (destruct Hk as [Hk|Hk];
                     [injection Hk as <- <-; reflexivity|]);
             destruct Hk|]).
    destruct Hin.
Qed.

Lemma browser_codes_recognised_witness :
  fst (handleKeyDown "kEyW" noKeys) "keyw"%string = true /\
  snd (handleKeyDown "kEyW" noKeys) = true.
Proof.
  destruct (browser_codes_recognised noKeys "kEyW") as [Hrec _].
  destruct (Hrec "KeyW"%string "keyw"%string) as (H1 & _ & _ & H4 & _).
  - cbn. tauto.
  - reflexivity.
  - split; [exact H1 | exact H4].
Defined.

Lemma dispatchAll_snoc (events : list KeyEvent) (e : KeyEvent)
      (keysPressed : Keys) :
  dispatchAll (events ++ [e]) keysPressed =
  dispatch (dispatchAll events keysPressed) e.
Proof. unfold dispatchAll. now rewrite fold_left_app. Qed.

(** X12: last write wins: after any sequence of key events, the flag of a
    movement key is what the last event naming that key (in any letter
    case) wrote, true for a key-down and false for a key-up, and it is the
    initial flag when no event named the key. *)
Theorem last_write_wins (events : list KeyEvent) (keysPressed : Keys)
        (k : string) :
  In k movementKeys ->
  dispatchAll events keysPressed k =
  match lastEventFor k events with
  | Some e => isDown e
  | None => keysPressed k
  end.
Proof.
  intros Hk. induction events as [|e events IH] using rev_ind.
  - reflexivity.
  - rewrite dispatchAll_snoc, dispatch_at, IH.
    unfold lastEventFor. rewrite rev_app_distr. cbn [rev app find].
    rewrite (String.eqb_sym k).
    destruct (String.eqb (toLowerCase (codeOf e)) k) eqn:E;
      cbn [andb]; [|reflexivity].
    apply String.eqb_eq in E. rewrite E.
    apply includes_movementKeys in Hk. now rewrite Hk.
Qed.

Lemma last_write_wins_witness :
  dispatchAll [keydown "KeyW"; keydown "KeyD"; keyup "KeyW"]%string noKeys
              "keyw"%string
  = match lastEventFor "keyw"%string
            [keydown "KeyW"; keydown "KeyD"; keyup "KeyW"]%string with
    | Some e => isDown e
    | None => noKeys "keyw"%string
    end.
Proof.
  apply (last_write_wins _ noKeys "keyw"%string). cbn. tauto.
Defined.


(** ** The frame callback *)

(** The velocity of a frame for every combination of keys: a multiple of
    the look vector, a multiple of the right vector and a vertical lift. *)
Lemma velocity_formula (keysPressed : Keys) (delta : R) (w : Camera * Refs) :
  let f := worldDirection (fst w) in
  let r := normalize (crossVectors f (up (fst w))) in
  let sd := speed * delta in
  let held (k : string) := keysPressed k in
  let along :=
    (if held "keyw"%string then sd else 0) +
    (if held "keys"%string
     then (if held "keyw"%string then sd else 1) * - sd else 0) in
  let across :=
    (if held "keya"%string then - sd else 0) +
    (if held "keyd"%string
     then (if held "keya"%string then - sd else 1) * sd else 0) in
  let lift := if held "space"%string then sd else 0 in
  velocityOf keysPressed delta w =
  add (add (multiplyScalar f along) (multiplyScalar r across))
      (mkVector3 0 lift 0).
Proof.
  destruct w as [camera refs]. cbv zeta. unfold velocityOf, useFrame.
  cbn [fst snd]. set (r := normalize _).
  destruct (keysPressed "keyw"%string), (keysPressed "keys"%string),
    (keysPressed "keya"%string), (keysPressed "keyd"%string),
    (keysPressed "space"%string);
    cbn [velocity snd]; apply vector3_eq; cbn; ring.
Qed.

(** X14: opposite keys do not cancel.  The forward and right vectors are
    scaled in place, so the second key of a pair scales the result of the
    first: forward and back held together move the camera by
    [speed * delta * (1 - speed * delta)] along the look vector, left and
    right held together by [- speed * delta * (1 + speed * delta)] along
    the right vector; the two pairs do not interfere with each other or
    with ascend. *)
Theorem opposite_keys_do_not_cancel (keysPressed : Keys) (delta : R)
        (w : Camera * Refs) :
  let f := worldDirection (fst w) in
  let r := normalize (crossVectors f (up (fst w))) in
  let sd := speed * delta in
  keysPressed "keyw"%string = true -> keysPressed "keys"%string = true ->
  keysPressed "keya"%string = true -> keysPressed "keyd"%string = true ->
  velocityOf keysPressed delta w =
  add (add (multiplyScalar f (sd * (1 - sd)))
           (multiplyScalar r (- sd * (1 + sd))))
      (mkVector3 0 (if keysPressed "space"%string then sd else 0) 0) /\
  velocityOf (fun k => if String.eqb k "keya" then false
                       else if String.eqb k "keyd" then false
                       else keysPressed k) delta w =
  add (multiplyScalar f (sd * (1 - sd)))
      (mkVector3 0 (if keysPressed "space"%string then sd else 0) 0) /\
  velocityOf (fun k => if String.eqb k "keyw" then false
                       else if String.eqb k "keys" then false
                       else keysPressed k) delta w =
  add (multiplyScalar r (- sd * (1 + sd)))
      (mkVector3 0 (if keysPressed "space"%string then sd else 0) 0).
Proof.
  intros f r sd Hw Hs Ha Hd.
  rewrite !velocity_formula. cbv zeta.
  cbn [String.eqb Ascii.eqb Bool.eqb]. rewrite Hw, Hs, Ha, Hd.
  fold f. fold r. fold sd.
  repeat split; apply vector3_eq; cbn; ring.
Qed.

Lemma opposite_keys_do_not_cancel_witness :
  let keys := holding ["keyw"; "keys"; "keya"; "keyd"]%string in
  let w := cameraAt (mkVector3 0 15 20) (mkVector3 0 0 (-1)) in
  let f := worldDirection (fst w) in
  let sd := speed * (1 / 100) in
  velocityOf (fun k => if String.eqb k "keya" then false
                       else if String.eqb k "keyd" then false
                       else keys k) (1 / 100) w =
  add (multiplyScalar f (sd * (1 - sd)))
      (mkVector3 0 (if keys "space"%string then sd else 0) 0).
Proof.
  intros keys w f sd.
  apply (proj1 (proj2 (opposite_keys_do_not_cancel keys (1 / 100) w
                         eq_refl eq_refl eq_refl eq_refl))).
Defined.

Lemma right_of_default_up (f : Vector3) :
  crossVectors f (mkVector3 0 1 0) = mkVector3 (- z f) 0 (x f).
Proof. apply vector3_eq; cbn; ring. Qed.

Lemma length_multiplyScalar (v : Vector3) (s : R) :
  length (multiplyScalar v s) = Rabs s * length v.
Proof.
  unfold length. cbn [multiplyScalar x y z].
  replace (x v * s * (x v * s) + y v * s * (y v * s) + z v * s * (z v * s))
    with (Rsqr s * (x v * x v + y v * y v + z v * z v))
    by (unfold Rsqr; ring).
  rewrite sqrt_mult.
  - now rewrite sqrt_Rsqr_abs.
  - apply Rle_0_sqr.
  - pose proof (Rle_0_sqr (x v)). pose proof (Rle_0_sqr (y v)).
    pose proof (Rle_0_sqr (z v)). unfold Rsqr in *. lra.
Qed.

Lemma length_nonneg (v : Vector3) : 0 <= length v.
Proof. apply sqrt_pos. Qed.

(** A vector that is not of length 0 is normalized to length 1. *)
Lemma length_normalize (v : Vector3) :
  length v <> 0 -> length (normalize v) = 1.
Proof.
  intros Hl. unfold normalize.
  destruct (Req_dec_T (length v) 0) as [E|_]; [contradiction|].
  rewrite length_multiplyScalar.
  pose proof (length_nonneg v) as H0.
  assert (Hpos : 0 < length v) by lra.
  rewrite Rabs_pos_eq by (left; now apply Rinv_0_lt_compat).
  now apply Rinv_l.
Qed.

(** X15: with the default up vector (0, 1, 0), strafing is horizontal: the
    left and right keys never change the vertical component of the velocity,
    which comes from forward, back and ascend alone. *)
Theorem strafing_is_horizontal (keysPressed : Keys) (delta : R)
        (w : Camera * Refs) :
  up (fst w) = mkVector3 0 1 0 ->
  y (velocityOf keysPressed delta w) =
  y (velocityOf (fun k => if String.eqb k "keya" then false
                          else if String.eqb k "keyd" then false
                          else keysPressed k) delta w) /\
  (keysPressed "keyw"%string = false ->
   keysPressed "keys"%string = false ->
   keysPressed "space"%string = false ->
   y (velocityOf keysPressed delta w) = 0).
Proof.
  intros Hup.
  assert (Hr : y (normalize (crossVectors (worldDirection (fst w))
                                          (up (fst w)))) = 0).
  { rewrite Hup, right_of_default_up. unfold normalize.
    cbn [multiplyScalar y]. ring. }
  rewrite !velocity_formula. cbv zeta. cbn [String.eqb Ascii.eqb Bool.eqb].
  cbn [add multiplyScalar y]. rewrite Hr. split.
  - ring.
  - intros -> -> ->. ring.
Qed.

Lemma strafing_is_horizontal_witness :
  let w := cameraAt (mkVector3 0 15 20) (mkVector3 0 0 (-1)) in
  y (velocityOf (holding ["keya"]%string) (1 / 60) w) = 0.
Proof.
  intros w.
  apply (proj2 (strafing_is_horizontal (holding ["keya"]%string) (1 / 60) w
                  eq_refl)); reflexivity.
Defined.

(** X17: with the default up vector and a look direction that is not
    vertical, holding only the right key (or only the left key) for a frame
    of delta [dt >= 0] moves the camera by exactly [speed * dt], whatever
    the length of the look vector. *)
Theorem strafe_step_length (keysPressed : Keys) (delta : R)
        (w : Camera * Refs) :
  up (fst w) = mkVector3 0 1 0 ->
  x (worldDirection (fst w)) <> 0 \/ z (worldDirection (fst w)) <> 0 ->
  0 <= delta ->
  keysPressed "keyw"%string = false ->
  keysPressed "keys"%string = false ->
  keysPressed "space"%string = false ->
  keysPressed "keya"%string <> keysPressed "keyd"%string ->
  length (velocityOf keysPressed delta w) = speed * delta.
Proof.
  intros Hup Hdir Hdt Hw Hs Hsp Hone.
  set (r := normalize (crossVectors (worldDirection (fst w)) (up (fst w)))).
  assert (Hr : length r = 1).
  { apply length_normalize. rewrite Hup, right_of_default_up.
    unfold length. cbn [x y z]. intros E. apply sqrt_eq_0 in E.
    - assert (x (worldDirection (fst w)) = 0 /\ z (worldDirection (fst w)) = 0)
        as [E1 E2] by (split; nra).
      destruct Hdir; contradiction.
    - nra. }
  assert (Hsd : 0 <= speed * delta) by (unfold speed; lra).
  rewrite velocity_formula. cbv zeta. fold r. rewrite Hw, Hs, Hsp.
  destruct (keysPressed "keya"%string), (keysPressed "keyd"%string);
    try (exfalso; now apply Hone).
  - replace (add _ _) with (multiplyScalar r (- (speed * delta)))
      by (apply vector3_eq; cbn; ring).
    rewrite length_multiplyScalar, Hr, Rabs_Ropp, Rabs_pos_eq by assumption.
    ring.
  - replace (add _ _) with (multiplyScalar r (speed * delta))
      by (apply vector3_eq; cbn; ring).
    rewrite length_multiplyScalar, Hr, Rabs_pos_eq by assumption. ring.
Qed.

Lemma strafe_step_length_witness :
  length (velocityOf (holding ["keyd"]%string) (1 / 60)
            (cameraAt (mkVector3 0 15 20) (mkVector3 0 0 (-1))))
  = speed * (1 / 60).
Proof.
  apply strafe_step_length; try reflexivity.
  - right. cbn. lra.
  - lra.
  - cbn. discriminate.
Defined.

(** X18: forward movement does not depend on the frame rate: with only the
    forward key held and the look direction fixed, [n] frames of delta [dt]
    put the camera where one frame of delta [n * dt] puts it, as long as no
    frame ends below the floor height 2. *)
Theorem forward_is_frame_rate_independent (n : nat) (keysPressed : Keys)
        (delta : R) (w : Camera * Refs) :
  (1 <= n)%nat ->
  onlyForward keysPressed ->
  (forall k, (1 <= k <= n)%nat ->
     2 <= y (position (fst w))
          + INR k * (speed * delta) * y (worldDirection (fst w))) ->
  position (fst (frames n keysPressed delta w)) =
  position (cameraAfter keysPressed (INR n * delta) w).
Proof.
  intros Hn Hk Hfloor.
  rewrite (forward_frames n keysPressed delta w Hk Hfloor).
  rewrite useFrame_position, forward_velocity by assumption. cbv zeta.
  specialize (Hfloor n ltac:(lia)).
  destruct (Rlt_dec _ _) as [Hlt|_].
  - exfalso. cbn in Hlt. unfold speed in *. lra.
  - apply vector3_eq; cbn; ring.
Qed.

Lemma forward_is_frame_rate_independent_witness :
  let keys := holding ["keyw"]%string in
  let w := cameraAt (mkVector3 0 15 20) (mkVector3 0 0 (-1)) in
  position (fst (frames 4 keys (1 / 60) w)) =
  position (cameraAfter keys (INR 4 * (1 / 60)) w).
Proof.
  intros keys w.
  apply (forward_is_frame_rate_independent 4 keys (1 / 60) w).
  - lia.
  - repeat split.
  - intros k _. cbn. lra.
Defined.

Lemma idle_velocity (keysPressed : Keys) (delta : R) (w : Camera * Refs) :
  idle keysPressed -> velocityOf keysPressed delta w = zero.
Proof.
  intros Hidle. rewrite velocity_formula. cbv zeta.
  rewrite !Hidle by (cbn; tauto). apply vector3_eq; cbn; ring.
Qed.

(** X19: with no movement key held the camera comes to rest after one
    frame: any number of further idle frames, of any deltas, leaves it where
    the first one put it. *)
Theorem idle_frames_rest (n : nat) (keysPressed : Keys) (delta delta' : R)
        (w : Camera * Refs) :
  idle keysPressed ->
  position (fst (frames n keysPressed delta'
                   (useFrame keysPressed delta w))) =
  position (cameraAfter keysPressed delta w).
Proof.
  intros Hidle.
  assert (Hrest : forall w', 2 <= y (position (fst w')) ->
            position (cameraAfter keysPressed delta' w') = position (fst w')).
  { intros w' Hy. rewrite useFrame_position, idle_velocity by assumption.
    cbv zeta. destruct (Rlt_dec _ _) as [Hlt|_].
    - exfalso. cbn in Hlt. lra.
    - apply vector3_eq; cbn; ring. }
  assert (Hfloor : 2 <= y (position (cameraAfter keysPressed delta w))).
  { rewrite useFrame_position. cbv zeta.
    destruct (Rlt_dec _ _) as [Hlt|Hge]; cbn in *; lra. }
  unfold cameraAfter in *.
  revert Hfloor. generalize (useFrame keysPressed delta w). intros w1.
  revert w1. induction n as [|n IH]; intros w1 H1; [reflexivity|].
  cbn [frames]. rewrite IH.
  - now apply Hrest.
  - rewrite Hrest by assumption. exact H1.
Qed.

Lemma idle_frames_rest_witness :
  let w := cameraAt (mkVector3 0 1 20) (mkVector3 0 0 (-1)) in
  position (fst (frames 3 (holding []) (1 / 30)
                   (useFrame (holding []) (1 / 60) w))) =
  position (cameraAfter (holding []) (1 / 60) w).
Proof.
  intros w. apply idle_frames_rest. intros k _. reflexivity.
Defined.

End ControllerProperties.

(** * Properties of the overlay state *)

Module BlockProperties.

Import Block.

(** X20: whatever lock and unlock events the pointer-lock controls report,
    in whatever order, the instructions overlay and the start prompt are
    shown together, exactly while the pointer is not locked, and the pointer
    is locked exactly when the last event reported was a lock. *)
Theorem overlay_follows_lock (events : list LockEvent) :
  let s := handleAll events initial in
  showInstructions s = negb (isLocked s) /\
  instructionsShown s = promptShown s /\
  isLocked s = match last events unlock with lock => true | unlock => false end.
Proof.
  cbv zeta. induction events as [|e events IH] using rev_ind.
  - repeat split.
  - unfold handleAll. rewrite fold_left_app. cbn [fold_left].
    rewrite last_last. destruct e; repeat split.
Qed.

End BlockProperties.
